(** * Routh-Hurwitz array construction: a shallow embedding

    Source: [routh_hurwitz_symbolic] in
    [Classical_Control_System/Stability_Analysis/routh_hurwitz_criterion.ipynb].

    The function works on sympy expressions.  With exact rational input the
    only symbol that ever occurs is the placeholder ε, so every array entry
    is a rational function of ε over the rationals.  Entries are modelled as
    fractions of integer polynomials in ε; Python lists are lists with
    checked indexing in an error monad. *)

From Stdlib Require Import ZArith QArith Lia Lqa.
From stdpp Require Import base list.

Open Scope Z_scope.

(** ** Integer polynomials in ε *)

Module Poly.

(** Coefficients in increasing powers: [c0; c1; c2] is c0 + c1·ε + c2·ε². *)
Definition poly := list Z.

Definition pzero_b (p : poly) : bool := forallb (Z.eqb 0) p.

Fixpoint peqb (p q : poly) : bool :=
  match p, q with
  | [], _ => pzero_b q
  | _, [] => pzero_b p
  | a :: p', b :: q' => (a =? b) && peqb p' q'
  end.

Fixpoint padd (p q : poly) : poly :=
  match p, q with
  | [], _ => q
  | _, [] => p
  | a :: p', b :: q' => (a + b) :: padd p' q'
  end.

Definition pscale (k : Z) (p : poly) : poly := map (Z.mul k) p.

Definition psub (p q : poly) : poly := padd p (pscale (-1) q).

Fixpoint pmul (p q : poly) : poly :=
  match p with
  | [] => []
  | c :: p' => padd (pscale c q) (0 :: pmul p' q)
  end.

(** Value at a rational point (Horner). *)
Fixpoint peval (p : poly) (x : Q) : Q :=
  match p with
  | [] => 0%Q
  | c :: p' => (inject_Z c + x * peval p' x)%Q
  end.

(** The coefficients of [p] below ε^v vanish. *)
Definition lowz (v : nat) (p : poly) : Prop := forall k, (k < v)%nat -> nth k p 0 = 0.

(** Sum of the absolute values of the coefficients. *)
Definition pbound (p : poly) : Z := foldr (fun c acc => Z.abs c + acc) 0 p.

(** *** Helpers on the decreasing-power view, used by the normaliser *)

Fixpoint drop_zeros (h : list Z) : list Z :=
  match h with
  | 0 :: h' => drop_zeros h'
  | _ => h
  end.

(** Decreasing powers, leading coefficient first and non-zero. *)
Definition hi (p : poly) : list Z := drop_zeros (rev p).

Definition content (h : list Z) : Z := foldr Z.gcd 0 h.

Definition pprim (h : list Z) : list Z :=
  let k := content h in
  if k =? 0 then h else map (fun c => c / k) h.

(** [p - q] with both lists aligned at their heads. *)
Fixpoint sub_head (p q : list Z) : list Z :=
  match p, q with
  | a :: p', b :: q' => (a - b) :: sub_head p' q'
  | _, _ => p
  end.

(** Pseudo-remainder of [p] by [q] (leading coefficient of [q] non-zero). *)
Fixpoint prem_hi (fuel : nat) (p q : list Z) : list Z :=
  match fuel with
  | O => p
  | S fuel' =>
      if (length p <? length q)%nat then p
      else match p, q with
           | a :: p', b :: q' =>
               prem_hi fuel' (sub_head (map (Z.mul b) p') (map (Z.mul a) q')) q
           | _, _ => p
           end
  end.

(** Euclid's algorithm on primitive pseudo-remainders. *)
Fixpoint gcd_hi (fuel : nat) (p q : list Z) : list Z :=
  match fuel with
  | O => p
  | S fuel' =>
      match drop_zeros q with
      | [] => p
      | q' => gcd_hi fuel' q' (pprim (drop_zeros (prem_hi (length p) p q')))
      end
  end.

(** Quotient of the long division of [p] by [g]. *)
Fixpoint pquot_hi (fuel : nat) (p g : list Z) : list Z :=
  match fuel with
  | O => []
  | S fuel' =>
      if (length p <? length g)%nat then []
      else match p, g with
           | a :: p', b :: g' =>
               let c := a / b in
               c :: pquot_hi fuel' (sub_head p' (map (Z.mul c) g')) g
           | _, _ => []
           end
  end.

End Poly.

(** ** Expressions: rational functions of ε *)

Module Expr.
Import Poly.

Record rfun := RF { num : poly; den : poly }.

(** Python's [0] and sympy's [Integer(0)]. *)
Definition rzero : rfun := RF [0] [1].

(** [Symbol('ε')]. *)
Definition eps : rfun := RF [0; 1] [1].

(** [x == 0] / [x != 0] on an expression: sympy keeps an expression that is
    identically zero as the integer zero, so the comparison holds exactly for
    a vanishing numerator. *)
Definition is_zero (r : rfun) : bool := pzero_b (num r).

(** An expression is defined when its denominator is not the zero polynomial. *)
Definition wf (r : rfun) : Prop := pzero_b (den r) = false.

Definition rmul (x y : rfun) : rfun :=
  RF (pmul (num x) (num y)) (pmul (den x) (den y)).

Definition rsub (x y : rfun) : rfun :=
  RF (psub (pmul (num x) (den y)) (pmul (num y) (den x)))
     (pmul (den x) (den y)).

(** [x / y] as a fraction, without looking at [y]. *)
Definition rdiv_raw (x y : rfun) : rfun :=
  RF (pmul (num x) (den y)) (pmul (den x) (num y)).

(** [expr * k] for a Python integer [k]. *)
Definition rscale (k : Z) (x : rfun) : rfun := RF (pscale k (num x)) (den x).

(** Reduced form of a fraction: the common polynomial factor found by
    Euclid's algorithm is divided out, together with the common integer
    content, and the denominator's leading coefficient is made positive.
    The division is checked by multiplying back; the fraction is left as it
    is when the check fails. *)
Definition canon (r : rfun) : rfun :=
  if pzero_b (num r) then rzero
  else
    let n := hi (num r) in
    let d := hi (den r) in
    let g0 := pprim (gcd_hi (S (length n + length d)) n d) in
    let k := Z.gcd (content n) (content d) in
    let s := Z.sgn (hd 1 d) * Z.sgn (hd 1 g0) in
    let g := map (Z.mul (s * k)) g0 in
    let n' := rev (pquot_hi (length n) n g) in
    let d' := rev (pquot_hi (length d) d g) in
    if peqb (pmul (rev g) n') (num r) && peqb (pmul (rev g) d') (den r)
    then RF n' d' else r.

(** [simplify(e)]: an equal expression in reduced form. *)
Definition simplify (r : rfun) : rfun := canon r.

(** [sympify(c)] for an exact rational input: the rational in lowest terms. *)
Definition sympify (c : Q) : rfun :=
  let c' := Qred c in RF [Qnum c'] [Zpos (Qden c')].

(** Value of an expression at a rational value of ε. *)
Definition reval (r : rfun) (x : Q) : Q := (peval (num r) x / peval (den r) x)%Q.

(** Equality of expressions as functions of ε. *)
Definition req (r s : rfun) : Prop :=
  forall x : Q, (peval (num r) x * peval (den s) x == peval (num s) x * peval (den r) x)%Q.

Definition Qsign (x : Q) : Z := Z.sgn (Qnum x).

End Expr.

(** ** Python lists and exceptions *)

Module Py.

Inductive error := IndexError | ZeroDivisionError.

Inductive result (A : Type) :=
| Ok (a : A)
| Err (e : error).
Arguments Ok {A} a.
Arguments Err {A} e.

Definition bind {A B} (m : result A) (f : A -> result B) : result B :=
  match m with
  | Ok a => f a
  | Err e => Err e
  end.

Notation "x <- m ;; k" := (bind m (fun x => k))
  (at level 100, m at next level, right associativity).

(** [l[i]] for [i >= 0]. *)
Definition getitem {A} (l : list A) (i : nat) : result A :=
  match l !! i with
  | Some x => Ok x
  | None => Err IndexError
  end.

(** [l[i] = x] for [i >= 0]. *)
Definition setitem {A} (l : list A) (i : nat) (x : A) : result (list A) :=
  if (i <? length l)%nat then Ok (<[i:=x]> l) else Err IndexError.

(** [l[::2]]. *)
Fixpoint stride2 {A} (l : list A) : list A :=
  match l with
  | x :: _ :: l' => x :: stride2 l'
  | _ => l
  end.

(** A [for] loop threading the loop state, stopping at the first exception. *)
Fixpoint for_each {A S} (body : A -> S -> result S) (l : list A) (s : S) : result S :=
  match l with
  | [] => Ok s
  | x :: l' => s' <- body x s ;; for_each body l' s'
  end.

(** A list comprehension whose element expression can raise. *)
Fixpoint comprehension {A B} (f : A -> result B) (l : list A) : result (list B) :=
  match l with
  | [] => Ok []
  | x :: l' => y <- f x ;; ys <- comprehension f l' ;; Ok (y :: ys)
  end.

End Py.

(** ** The Routh array builder *)

Module Routh.
Import Poly Expr Py.

Abbreviation row := (list rfun).
Abbreviation matrix := (list (list rfun)).

(** [/] on expressions.  sympy would yield an undefined value for a zero
    divisor; the model reports it as an error so that it cannot go
    unnoticed. *)
Definition rdiv (x y : rfun) : result rfun :=
  if is_zero y then Err ZeroDivisionError else Ok (rdiv_raw x y).

(** The value substituted for ε before the signs are taken ([1e-6]).
    sympy evaluates [val.subs(eps, 1e-6)] in floating point when [val]
    contains ε; the model evaluates exactly at 1/10⁶ (an entry without ε is
    exact in both).  After the substitution no ε is left, so the following
    [limit(..., eps, 0, dir='+')] returns its argument unchanged.  Where the
    denominator vanishes at 1/10⁶ the value is 0, as division in [Q] has it. *)
Definition eps_val : Q := 1 # 1000000.

(** [c if c != 0 else eps]. *)
Definition pivot_or_eps (c : rfun) : rfun := if is_zero c then eps else c.

(** Body of the inner loop: one assignment [routh[i][j] = ...]. *)
Definition cell_step (i j : nat) (routh : matrix) : result matrix :=
  r2 <- getitem routh (i - 2) ;;
  a <- getitem r2 0 ;;
  b <- getitem r2 (j + 1) ;;
  r1 <- getitem routh (i - 1) ;;
  c <- getitem r1 0 ;;
  d <- getitem r1 (j + 1) ;;
  let c := pivot_or_eps c in
  q <- rdiv (rsub (rmul c b) (rmul a d)) c ;;
  ri <- getitem routh i ;;
  ri' <- setitem ri j (simplify q) ;;
  setitem routh i ri'.

(** Body of the outer loop: fill row [i], then the row-of-zeros case. *)
Definition row_step (n cols i : nat) (routh : matrix) : result matrix :=
  routh <- for_each (cell_step i) (seq 0 (cols - 1)) routh ;;
  ri <- getitem routh i ;;
  if forallb is_zero ri then
    let order := Z.of_nat n - Z.of_nat i in
    prev_row <- getitem routh (i - 1) ;;
    let aux_poly := imap (fun k x => rscale (order - 2 * Z.of_nat k) x) prev_row in
    setitem routh i (aux_poly ++ replicate (cols - length aux_poly) rzero)
  else Ok routh.

(** [sum(signs[i] != signs[i + 1] for i in range(len(signs) - 1))]. *)
Fixpoint sign_changes (signs : list Z) : Z :=
  match signs with
  | s :: (t :: _) as rest => (if s =? t then 0 else 1) + sign_changes rest
  | _ => 0
  end.

(** The sign-change detection after the array is complete:
    [first_col], [first_col_eval], [signs] and the count. *)
Definition count_changes (routh : matrix) : result Z :=
  first_col <- comprehension (fun r : row => getitem r 0) routh ;;
  let first_col_eval := map (fun val => reval val eps_val) first_col in
  let signs := map Qsign (filter (fun x => negb (Qeq_bool x 0)) first_col_eval) in
  Ok (sign_changes signs).

(** [coeffs[::2] + [0]*(cols - len(coeffs[::2]))]. *)
Definition first_row (coeffs : list rfun) : row :=
  let cols := ((length coeffs + 1) / 2)%nat in
  stride2 coeffs ++ replicate (cols - length (stride2 coeffs)) rzero.

(** [coeffs[1::2] + [0]*(cols - len(coeffs[1::2]))]. *)
Definition second_row (coeffs : list rfun) : row :=
  let cols := ((length coeffs + 1) / 2)%nat in
  stride2 (drop 1 coeffs) ++ replicate (cols - length (stride2 (drop 1 coeffs))) rzero.

(** The array as it is after the first two rows are stored. *)
Definition init_rows (coeffs : list rfun) : result matrix :=
  let n := length coeffs in
  let rows := n in
  let cols := ((n + 1) / 2)%nat in
  let routh := replicate rows (replicate cols rzero) in
  routh <- setitem routh 0 (first_row coeffs) ;;
  setitem routh 1 (second_row coeffs).

(** The array after the outer loop has run for [i = 2, ..., 2 + k - 1]. *)
Definition fill_rows (coeffs : list rfun) (k : nat) : result matrix :=
  let n := length coeffs in
  let cols := ((n + 1) / 2)%nat in
  routh <- init_rows coeffs ;;
  for_each (row_step n cols) (seq 2 k) routh.

Definition routh_hurwitz_symbolic (coeffs : list Q) : result (matrix * Z) :=
  let coeffs := map sympify coeffs in
  let n := length coeffs in
  let rows := n in
  routh <- fill_rows coeffs (rows - 2) ;;
  sign_changes <- count_changes routh ;;
  Ok (routh, sign_changes).

End Routh.

(** ** Reading the array and the loop bodies

    Total accessors and the closed forms of what one pass of each loop
    stores; the theorems below relate them to the loops of [Routh]. *)

Module RowForms.
Import Poly Expr Py Routh.

(** Number of columns, [(n + 1) // 2]. *)
Definition ncols (n : nat) : nat := ((n + 1) / 2)%nat.

(** [r[j]], zero outside the row. *)
Definition at_col (r : row) (j : nat) : rfun := default rzero (r !! j).

(** [array[i][j]], zero outside the array. *)
Definition cell (A : matrix) (i j : nat) : rfun :=
  at_col (default [] (A !! i)) j.

Definition zero_row (cols : nat) : row := replicate cols rzero.

(** The value assigned by [cell_step] when the two rows above are [r2], [r1]. *)
Definition entry (r2 r1 : row) (j : nat) : rfun :=
  let a := at_col r2 0 in
  let b := at_col r2 (j + 1) in
  let c := pivot_or_eps (at_col r1 0) in
  let d := at_col r1 (j + 1) in
  simplify (rdiv_raw (rsub (rmul c b) (rmul a d)) c).

(** Row [i] after the inner loop, starting from the row [ri]. *)
Definition filled_row (cols : nat) (r2 r1 ri : row) : row :=
  foldl (fun r j => <[j := entry r2 r1 j]> r) ri (seq 0 (cols - 1)).

(** The auxiliary-polynomial row built from [prev_row]. *)
Definition aux_row (n cols i : nat) (prev_row : row) : row :=
  let order := Z.of_nat n - Z.of_nat i in
  let aux_poly := imap (fun k x => rscale (order - 2 * Z.of_nat k) x) prev_row in
  aux_poly ++ replicate (cols - length aux_poly) rzero.

(** Row [i] after one pass of the outer loop. *)
Definition next_row (n cols i : nat) (r2 r1 : row) : row :=
  let f := filled_row cols r2 r1 (zero_row cols) in
  if forallb is_zero f then aux_row n cols i r1 else f.

(** Loop invariant of the outer loop when it is about to run for row [i]:
    rows below [i] are final, rows from [i] on are still the initial zeros. *)
Record built (n i : nat) (r0 r1 : row) (st : matrix) : Prop := {
  built_length : length st = n;
  built_first : st !! O = Some r0;
  built_second : st !! 1%nat = Some r1;
  built_width : forall m r, st !! m = Some r -> length r = ncols n;
  built_todo : forall m, (i <= m < n)%nat -> st !! m = Some (zero_row (ncols n));
  built_done : forall m, (2 <= m < i)%nat ->
    exists r2 r1, st !! (m - 2)%nat = Some r2 /\ st !! (m - 1)%nat = Some r1 /\
                  st !! m = Some (next_row n (ncols n) m r2 r1)
}.

(** *** Values of expressions *)

(** The expression has a value at ε = [x]: its denominator does not vanish. *)
Definition defined_at (r : rfun) (x : Q) : Prop := ~ (peval (den r) x == 0)%Q.

(** The expression is free of ε: it has the same value [q] at every ε. *)
Definition eps_free (r : rfun) (q : Q) : Prop :=
  forall x : Q, defined_at r x /\ (reval r x == q)%Q.

(** Two ε-free expressions whose values differ by the factor [k]. *)
Definition scaled (k : Q) (v v' : rfun) : Prop :=
  exists q, eps_free v q /\ eps_free v' (k * q)%Q.

(** The first column as the sign detection sees it. *)
Definition first_col (A : matrix) : list rfun := map (fun r => at_col r 0) A.

(** The sign of an entry by exact evaluation at [eps_val].  It is the sign
    the code computes for an entry without ε; for an entry that contains ε
    the code evaluates in floating point and can come out differently. *)
Definition sign_at (v : rfun) : Z := Qsign (reval v eps_val).

Definition signs_of (col : list rfun) : list Z :=
  filter (fun s => s ≠ 0) (map sign_at col).

(** The input read as a polynomial, highest power first, at a rational point. *)
Definition poly_at (coeffs : list Q) (s : Q) : Q :=
  foldl (fun acc c => (acc * s + c)%Q) 0%Q coeffs.

(** The defining expression of step 3, [(pivot·b − a·d) / pivot], on the
    entries of an array, with ε standing in for a zero pivot. *)
Definition formula (A : matrix) (i j : nat) : rfun :=
  let a := cell A (i - 2) 0 in
  let b := cell A (i - 2) (j + 1) in
  let pivot := pivot_or_eps (cell A (i - 1) 0) in
  let d := cell A (i - 1) (j + 1) in
  rdiv_raw (rsub (rmul pivot b) (rmul a d)) pivot.

(** *** Signs in the limit ε → 0+ (step 5 as the specification words it) *)

(** Lowest-order non-zero coefficient and its power. *)
Fixpoint low_term (p : poly) : nat * Z :=
  match p with
  | [] => (O, 0)
  | c :: p' => if c =? 0 then let '(v, a) := low_term p' in (S v, a) else (O, c)
  end.

(** The sign of the one-sided limit: zero when the limit is zero, the sign
    of the leading behaviour otherwise (also for an infinite limit). *)
Definition limit_sign (v : rfun) : Z :=
  let '(vn, an) := low_term (num v) in
  let '(vd, ad) := low_term (den v) in
  if (vd <? vn)%nat then 0 else Z.sgn an * Z.sgn ad.

Definition limit_count (A : matrix) : Z :=
  sign_changes (filter (fun s => s ≠ 0) (map limit_sign (first_col A))).

End RowForms.

(** ** Facts about polynomials *)

Module PolyFacts.
Import Poly.

Lemma peval_padd p q x : (peval (padd p q) x == peval p x + peval q x)%Q.
Proof.
  revert q; induction p as [|a p IH]; intros [|b q]; simpl; try ring.
  rewrite IH, inject_Z_plus. ring.
Qed.

Lemma peval_pscale k p x : (peval (pscale k p) x == inject_Z k * peval p x)%Q.
Proof.
  induction p as [|a p IH]; simpl; [ring|].
  rewrite IH, inject_Z_mult. ring.
Qed.

Lemma peval_psub p q x : (peval (psub p q) x == peval p x - peval q x)%Q.
Proof.
  unfold psub. rewrite peval_padd, peval_pscale.
  change (inject_Z (-1)) with (-1 # 1)%Q. ring.
Qed.

Lemma peval_pmul p q x : (peval (pmul p q) x == peval p x * peval q x)%Q.
Proof.
  induction p as [|a p IH]; simpl; [ring|].
  rewrite peval_padd, peval_pscale. simpl. rewrite IH.
  change (inject_Z 0) with 0%Q. ring.
Qed.

Lemma pzero_b_cons a p : pzero_b (a :: p) = (0 =? a) && pzero_b p.
Proof. reflexivity. Qed.

Lemma pzero_b_cons_true a p : pzero_b (a :: p) = true <-> a = 0 /\ pzero_b p = true.
Proof.
  rewrite pzero_b_cons, andb_true_iff, Z.eqb_eq. intuition congruence.
Qed.

Lemma pzero_b_peval p x : pzero_b p = true -> (peval p x == 0)%Q.
Proof.
  induction p as [|a p IH]; [reflexivity|].
  intros [-> Hp]%pzero_b_cons_true. cbn [peval].
  rewrite (IH Hp). change (inject_Z 0) with 0%Q. ring.
Qed.

Lemma peqb_pzero p q : peqb p q = true -> pzero_b p = pzero_b q.
Proof.
  revert q; induction p as [|a p IH]; intros q H.
  - destruct q; simpl in *; [reflexivity | now rewrite H].
  - destruct q as [|b q]; simpl in H.
    + exact H.
    + apply andb_prop in H as [Hab H]. apply Z.eqb_eq in Hab. subst b.
      simpl. now rewrite (IH _ H).
Qed.

Lemma peqb_peval p q x : peqb p q = true -> (peval p x == peval q x)%Q.
Proof.
  revert q; induction p as [|a p IH]; intros q H.
  - destruct q; [reflexivity|]. symmetry. now apply pzero_b_peval.
  - destruct q as [|b q]; simpl in H.
    + now apply pzero_b_peval.
    + apply andb_prop in H as [Hab H]. apply Z.eqb_eq in Hab. subst b.
      simpl. now rewrite (IH _ H).
Qed.

Lemma pzero_b_padd_l p q : pzero_b p = true -> pzero_b (padd p q) = pzero_b q.
Proof.
  revert q; induction p as [|a p IH]; intros [|b q] H; try easy.
  apply pzero_b_cons_true in H as [-> H].
  cbn [padd]. rewrite !pzero_b_cons, IH by exact H. reflexivity.
Qed.

Lemma pzero_b_pscale k p : pzero_b (pscale k p) = (k =? 0) || pzero_b p.
Proof.
  induction p as [|a p IH].
  - simpl. now rewrite orb_true_r.
  - cbn [pscale map]. fold (pscale k p). rewrite !pzero_b_cons, IH.
    destruct (Z.eqb_spec k 0) as [->|Hk]; cbn [orb].
    + reflexivity.
    + f_equal. destruct (Z.eqb_spec 0 (k * a)), (Z.eqb_spec 0 a); try reflexivity; nia.
Qed.

Lemma pmul_zero_r p q : pzero_b q = true -> pzero_b (pmul p q) = true.
Proof.
  intros Hq. induction p as [|a p IH]; [reflexivity|]. cbn [pmul].
  rewrite pzero_b_padd_l; [now rewrite pzero_b_cons, IH|].
  rewrite pzero_b_pscale, Hq. apply orb_true_r.
Qed.

Lemma pmul_zero_l p q : pzero_b p = true -> pzero_b (pmul p q) = true.
Proof.
  induction p as [|a p IH]; [reflexivity|].
  intros [-> Hp]%pzero_b_cons_true. cbn [pmul].
  rewrite pzero_b_padd_l; [now rewrite pzero_b_cons, IH|].
  now rewrite pzero_b_pscale.
Qed.

Lemma pzero_b_nth p : pzero_b p = true <-> forall k, nth k p 0 = 0.
Proof.
  induction p as [|a p IH].
  - split; [intros _ [|k]; reflexivity | reflexivity].
  - rewrite pzero_b_cons_true, IH. split.
    + intros [-> H] [|k]; [reflexivity | apply H].
    + intros H. split; [apply (H O) | intros k; apply (H (S k))].
Qed.

Lemma nth_padd p q k : nth k (padd p q) 0 = nth k p 0 + nth k q 0.
Proof.
  revert q k; induction p as [|a p IH]; intros [|b q] [|k]; cbn [padd nth]; try lia.
  apply IH.
Qed.

Lemma nth_pscale c p k : nth k (pscale c p) 0 = c * nth k p 0.
Proof.
  revert k; induction p as [|a p IH]; intros [|k]; cbn [pscale map nth]; try lia.
  apply IH.
Qed.

Lemma lowz_pmul v p q : lowz v q -> lowz v (pmul p q).
Proof.
  intros Hq. induction p as [|a p IH]; intros k Hk.
  - now destruct k.
  - cbn [pmul]. rewrite nth_padd, nth_pscale, (Hq k Hk).
    destruct k as [|k]; cbn [nth]; [lia|]. rewrite IH by lia. lia.
Qed.

Lemma nonzero_valuation q :
  pzero_b q = false -> exists v, lowz v q /\ nth v q 0 <> 0.
Proof.
  induction q as [|b q IH]; [discriminate|].
  rewrite pzero_b_cons. destruct (Z.eqb_spec 0 b) as [<-|Hb]; cbn [andb].
  - intros [v [Hl Hv]]%IH. exists (S v). split; [|exact Hv].
    intros [|k] Hk; [reflexivity|]. apply Hl. lia.
  - intros _. exists O. split; [intros k Hk; lia | cbn; lia].
Qed.

(** Integer polynomials have no zero divisors. *)
Lemma pmul_nonzero p q :
  pzero_b p = false -> pzero_b q = false -> pzero_b (pmul p q) = false.
Proof.
  intros Hp Hq. destruct (nonzero_valuation q Hq) as [v [Hl Hv]].
  induction p as [|a p IH]; [discriminate|].
  cbn [pmul]. rewrite pzero_b_cons in Hp.
  destruct (Z.eqb_spec 0 a) as [<-|Ha]; cbn [andb] in Hp.
  - rewrite pzero_b_padd_l by now rewrite pzero_b_pscale.
    rewrite pzero_b_cons. now apply IH.
  - apply not_true_iff_false. intros Hz.
    apply pzero_b_nth with (k := v) in Hz.
    rewrite nth_padd, nth_pscale in Hz.
    assert (nth v (0 :: pmul p q) 0 = 0) as Hs.
    { destruct v as [|v]; [reflexivity|]. cbn [nth].
      apply (lowz_pmul (S v)); [exact Hl | lia]. }
    nia.
Qed.

Lemma pmul_zero_iff p q :
  pzero_b (pmul p q) = pzero_b p || pzero_b q.
Proof.
  destruct (pzero_b p) eqn:Hp; [now apply pmul_zero_l|].
  destruct (pzero_b q) eqn:Hq; [now apply pmul_zero_r|].
  now apply pmul_nonzero.
Qed.

End PolyFacts.

(** ** Facts about expressions *)

Module ExprFacts.
Import Poly Expr PolyFacts.

Lemma wf_rzero : wf rzero.
Proof. reflexivity. Qed.

Lemma wf_eps : wf eps.
Proof. reflexivity. Qed.

Lemma wf_sympify c : wf (sympify c).
Proof. reflexivity. Qed.

Lemma wf_rmul x y : wf x -> wf y -> wf (rmul x y).
Proof. unfold wf. simpl. apply pmul_nonzero. Qed.

Lemma wf_rsub x y : wf x -> wf y -> wf (rsub x y).
Proof. unfold wf. simpl. apply pmul_nonzero. Qed.

Lemma wf_rdiv_raw x y : wf x -> is_zero y = false -> wf (rdiv_raw x y).
Proof. unfold wf, is_zero. simpl. apply pmul_nonzero. Qed.

Lemma wf_rscale k x : wf x -> wf (rscale k x).
Proof. exact id. Qed.

(** The three outcomes of the reduction. *)
Lemma canon_cases r :
  (pzero_b (num r) = true /\ canon r = rzero) \/
  (pzero_b (num r) = false /\ canon r = r) \/
  (pzero_b (num r) = false /\
   exists g, peqb (pmul g (num (canon r))) (num r) = true /\
             peqb (pmul g (den (canon r))) (den r) = true).
Proof.
  unfold canon. destruct (pzero_b (num r)) eqn:Hn; [now left | right].
  cbv zeta.
  match goal with |- context [if ?c then _ else _] => destruct c eqn:Hc end.
  - right. split; [reflexivity|]. apply andb_prop in Hc as [H1 H2].
    eexists. split; [exact H1 | exact H2].
  - now left.
Qed.

Lemma is_zero_canon r : is_zero (canon r) = is_zero r.
Proof.
  unfold is_zero.
  destruct (canon_cases r) as [[Hn ->] | [[Hn ->] | [Hn [g [H1 _]]]]];
    [now rewrite Hn | reflexivity |].
  apply peqb_pzero in H1. rewrite pmul_zero_iff, Hn in H1.
  now apply orb_false_elim in H1 as [_ ->].
Qed.

Lemma wf_canon r : wf r -> wf (canon r).
Proof.
  unfold wf. intros Hd.
  destruct (canon_cases r) as [[Hn ->] | [[Hn ->] | [Hn [g [_ H2]]]]];
    [reflexivity | exact Hd |].
  apply peqb_pzero in H2. rewrite pmul_zero_iff, Hd in H2.
  now apply orb_false_elim in H2 as [_ ->].
Qed.

(** Reduction does not change the value of the expression. *)
Lemma canon_req r : req (canon r) r.
Proof.
  intros x.
  destruct (canon_cases r) as [[Hn ->] | [[Hn ->] | [Hn [g [H1 H2]]]]].
  - rewrite (pzero_b_peval (num r) x Hn). simpl. ring.
  - reflexivity.
  - rewrite <- (peqb_peval _ _ x H1), <- (peqb_peval _ _ x H2), !peval_pmul. ring.
Qed.

Lemma is_zero_simplify r : is_zero (simplify r) = is_zero r.
Proof. apply is_zero_canon. Qed.

Lemma wf_simplify r : wf r -> wf (simplify r).
Proof. apply wf_canon. Qed.

Lemma simplify_req r : req (simplify r) r.
Proof. apply canon_req. Qed.

(** *** Signs of rationals *)

Lemma Qsign_pos x : (0 < x)%Q -> Qsign x = 1.
Proof.
  unfold Qlt, Qsign. simpl. rewrite Z.mul_1_r. intros H.
  apply Z.sgn_pos. lia.
Qed.

Lemma Qsign_neg x : (x < 0)%Q -> Qsign x = -1.
Proof.
  unfold Qlt, Qsign. simpl. rewrite Z.mul_1_r. intros H.
  apply Z.sgn_neg. lia.
Qed.

Lemma Qeq_bool_0_false x : ~ (x == 0)%Q -> Qeq_bool x 0 = false.
Proof.
  intros H. apply not_true_iff_false. intros Hb. apply H.
  now apply Qeq_bool_eq.
Qed.

Lemma Qsign_Qeq x y : (x == y)%Q -> Qsign x = Qsign y.
Proof.
  intros H. destruct (Q_dec x 0) as [[Hx|Hx]|Hx].
  - rewrite (Qsign_neg x Hx), (Qsign_neg y); [reflexivity | now rewrite <- H].
  - rewrite (Qsign_pos x Hx), (Qsign_pos y); [reflexivity | now rewrite <- H].
  - assert (Hy : (y == 0)%Q) by now rewrite <- H.
    unfold Qeq in Hx, Hy. simpl in Hx, Hy. unfold Qsign.
    replace (Qnum x) with 0 by lia. replace (Qnum y) with 0 by lia. reflexivity.
Qed.

(** A coefficient read back from its expression. *)
Lemma reval_sympify c x : (reval (sympify c) x == c)%Q.
Proof.
  unfold reval, sympify. cbn [num den peval].
  rewrite <- (Qred_correct c) at 3.
  destruct (Qred c) as [a b]. cbn [Qnum Qden].
  rewrite (Qmake_Qdiv a b). 
  assert (E : forall k, (inject_Z k + x * 0 == inject_Z k)%Q) by (intros; ring).
  rewrite !E. reflexivity.
Qed.

End ExprFacts.

(** ** The loops of the builder *)

Module LoopFacts.
Import Poly Expr Py Routh RowForms PolyFacts ExprFacts.
Local Open Scope nat_scope.

Lemma getitem_Some {A} (l : list A) i x : l !! i = Some x -> getitem l i = Ok x.
Proof. unfold getitem. now intros ->. Qed.

Lemma getitem_Ok {A} (l : list A) i x : getitem l i = Ok x -> l !! i = Some x.
Proof. unfold getitem. destruct (l !! i); [congruence | discriminate]. Qed.

Lemma setitem_lt {A} (l : list A) i x :
  i < length l -> setitem l i x = Ok (<[i:=x]> l).
Proof.
  unfold setitem. intros H. now destruct (Nat.ltb_spec i (length l)); [|lia].
Qed.

Lemma setitem_ge {A} (l : list A) i x :
  length l <= i -> setitem l i x = Err IndexError.
Proof.
  unfold setitem. intros H. now destruct (Nat.ltb_spec i (length l)); [lia|].
Qed.

Lemma at_col_Some (r : row) j x : r !! j = Some x -> at_col r j = x.
Proof. unfold at_col. now intros ->. Qed.

Lemma cell_Some (A : matrix) i j r x :
  A !! i = Some r -> r !! j = Some x -> cell A i j = x.
Proof. unfold cell. intros -> H. now apply at_col_Some. Qed.

(** The guard of the inner loop: the divisor is never zero. *)
Lemma pivot_or_eps_nonzero c : is_zero (pivot_or_eps c) = false.
Proof.
  unfold pivot_or_eps. destruct (is_zero c) eqn:Hc; [reflexivity | exact Hc].
Qed.

Lemma rdiv_pivot x c : rdiv x (pivot_or_eps c) = Ok (rdiv_raw x (pivot_or_eps c)).
Proof. unfold rdiv. now rewrite pivot_or_eps_nonzero. Qed.

Lemma rdiv_Err x y e : rdiv x y = Err e -> is_zero y = true /\ e = ZeroDivisionError.
Proof.
  unfold rdiv. destruct (is_zero y); [|discriminate]. intros [= <-]. now split.
Qed.

Lemma cell_step_ok i j (routh : matrix) r2 r1 ri :
  2 <= i ->
  routh !! (i - 2) = Some r2 -> routh !! (i - 1) = Some r1 -> routh !! i = Some ri ->
  j + 1 < length r2 -> j + 1 < length r1 -> j < length ri ->
  cell_step i j routh = Ok (<[i := <[j := entry r2 r1 j]> ri]> routh).
Proof.
  intros Hi H2 H1 H0 L2 L1 L0. unfold cell_step, entry.
  destruct (lookup_lt_is_Some_2 r2 0 ltac:(lia)) as [a Ha].
  destruct (lookup_lt_is_Some_2 r2 (j + 1) L2) as [b Hb].
  destruct (lookup_lt_is_Some_2 r1 0 ltac:(lia)) as [c Hc].
  destruct (lookup_lt_is_Some_2 r1 (j + 1) L1) as [d Hd].
  rewrite (at_col_Some _ _ _ Ha), (at_col_Some _ _ _ Hb),
    (at_col_Some _ _ _ Hc), (at_col_Some _ _ _ Hd).
  rewrite (getitem_Some _ _ _ H2). cbn [bind].
  rewrite (getitem_Some _ _ _ Ha), (getitem_Some _ _ _ Hb). cbn [bind].
  rewrite (getitem_Some _ _ _ H1). cbn [bind].
  rewrite (getitem_Some _ _ _ Hc), (getitem_Some _ _ _ Hd). cbn [bind].
  rewrite rdiv_pivot. cbn [bind].
  rewrite (getitem_Some _ _ _ H0). cbn [bind].
  rewrite (setitem_lt ri) by exact L0. cbn [bind].
  apply setitem_lt. now apply lookup_lt_Some in H0.
Qed.

Lemma inner_loop i r2 r1 m :
  2 <= i ->
  forall k (routh : matrix) ri,
    routh !! (i - 2) = Some r2 -> routh !! (i - 1) = Some r1 -> routh !! i = Some ri ->
    k + m < length r2 -> k + m < length r1 -> k + m <= length ri ->
    for_each (cell_step i) (seq k m) routh =
    Ok (<[i := foldl (fun r j => <[j := entry r2 r1 j]> r) ri (seq k m)]> routh).
Proof.
  intros Hi. induction m as [|m IH]; intros k routh ri H2 H1 H0 L2 L1 L0.
  - cbn. now rewrite list_insert_id.
  - cbn [seq for_each foldl].
    rewrite (cell_step_ok i k routh r2 r1 ri) by (assumption || lia).
    cbn [bind]. pose proof (lookup_lt_Some _ _ _ H0) as Hlen.
    rewrite (IH (S k) _ (<[k := entry r2 r1 k]> ri)).
    + now rewrite list_insert_insert_eq.
    + rewrite list_lookup_insert_ne by lia. exact H2.
    + rewrite list_lookup_insert_ne by lia. exact H1.
    + now apply list_lookup_insert_eq.
    + lia.
    + lia.
    + rewrite length_insert. lia.
Qed.

Lemma row_step_ok n cols i (routh : matrix) r2 r1 :
  2 <= i -> 1 <= cols ->
  routh !! (i - 2) = Some r2 -> routh !! (i - 1) = Some r1 ->
  routh !! i = Some (zero_row cols) ->
  length r2 = cols -> length r1 = cols ->
  row_step n cols i routh = Ok (<[i := next_row n cols i r2 r1]> routh).
Proof.
  intros Hi Hc H2 H1 H0 L2 L1. unfold row_step.
  rewrite (inner_loop i r2 r1 (cols - 1) Hi 0 routh (zero_row cols))
    by (try assumption; unfold zero_row; rewrite ?length_replicate; lia).
  cbn [bind]. fold (filled_row cols r2 r1 (zero_row cols)).
  pose proof (lookup_lt_Some _ _ _ H0) as Hlen.
  rewrite (getitem_Some _ i (filled_row cols r2 r1 (zero_row cols)))
    by now apply list_lookup_insert_eq.
  cbn [bind]. unfold next_row.
  destruct (forallb is_zero (filled_row cols r2 r1 (zero_row cols))); [|reflexivity].
  rewrite (getitem_Some _ (i - 1) r1)
    by (rewrite list_lookup_insert_ne by lia; exact H1).
  cbn [bind]. rewrite setitem_lt by now rewrite length_insert.
  now rewrite list_insert_insert_eq.
Qed.

(** *** Slices and the first two rows *)

Lemma stride2_pair {A} (l : list A) :
  (length (stride2 l) = (length l + 1) / 2 /\
   forall k, stride2 l !! k = l !! (2 * k)) /\
  (forall x, length (stride2 (x :: l)) = (length (x :: l) + 1) / 2 /\
   forall k, stride2 (x :: l) !! k = (x :: l) !! (2 * k)).
Proof.
  induction l as [|y l [[IH1 IH2] IH3]].
  - repeat split; intros [|k]; reflexivity.
  - split; [apply IH3|]. intros x. cbn [stride2 length]. split.
    + rewrite IH1. replace (S (S (length l)) + 1) with (length l + 1 + 1 * 2) by lia.
      rewrite Nat.div_add by lia. lia.
    + intros [|k]; [reflexivity|].
      replace (2 * S k) with (S (S (2 * k))) by lia. cbn. apply IH2.
Qed.

Lemma length_stride2 {A} (l : list A) : length (stride2 l) = (length l + 1) / 2.
Proof. apply stride2_pair. Qed.

Lemma lookup_stride2 {A} (l : list A) k : stride2 l !! k = l !! (2 * k).
Proof. apply stride2_pair. Qed.

Lemma ncols_bounds n : n <= 2 * ncols n <= n + 1.
Proof.
  unfold ncols. pose proof (Nat.div_mod_eq (n + 1) 2).
  pose proof (Nat.mod_upper_bound (n + 1) 2). lia.
Qed.

Lemma length_first_row (coeffs : row) :
  length (first_row coeffs) = ncols (length coeffs).
Proof.
  unfold first_row. rewrite length_app, length_replicate, length_stride2.
  unfold ncols. lia.
Qed.

Lemma length_second_row (coeffs : row) :
  length (second_row coeffs) = ncols (length coeffs).
Proof.
  unfold second_row. rewrite length_app, length_replicate, length_stride2, length_drop.
  assert ((length coeffs - 1 + 1) / 2 <= ncols (length coeffs)).
  { unfold ncols. apply Nat.Div0.div_le_mono. lia. }
  unfold ncols in *. lia.
Qed.

Lemma init_rows_ok (coeffs : row) :
  2 <= length coeffs ->
  init_rows coeffs =
  Ok (<[1 := second_row coeffs]>
        (<[0 := first_row coeffs]>
           (replicate (length coeffs) (zero_row (ncols (length coeffs)))))).
Proof.
  intros Hn. unfold init_rows.
  rewrite setitem_lt by (rewrite length_replicate; lia). cbn [bind].
  rewrite setitem_lt by (rewrite length_insert, length_replicate; lia).
  reflexivity.
Qed.

Lemma init_rows_short (coeffs : row) :
  length coeffs < 2 -> init_rows coeffs = Err IndexError.
Proof.
  intros Hn. unfold init_rows.
  destruct coeffs as [|c [|c' coeffs]]; [reflexivity | reflexivity | simpl in Hn; lia].
Qed.

(** *** Rows produced by one pass of the outer loop *)

Lemma length_fill (f : nat -> rfun) (js : list nat) (ri : row) :
  length (foldl (fun r j => <[j := f j]> r) ri js) = length ri.
Proof.
  revert ri; induction js as [|j js IH]; intros ri; cbn [foldl]; [reflexivity|].
  now rewrite IH, length_insert.
Qed.

Lemma lookup_fill_other (f : nat -> rfun) (js : list nat) (ri : row) j :
  j ∉ js -> foldl (fun r j => <[j := f j]> r) ri js !! j = ri !! j.
Proof.
  revert ri; induction js as [|j' js IH]; intros ri Hj; cbn [foldl]; [reflexivity|].
  apply not_elem_of_cons in Hj as [Hne Hj].
  rewrite IH by exact Hj. now apply list_lookup_insert_ne.
Qed.

Lemma lookup_fill_in (f : nat -> rfun) (js : list nat) (ri : row) j :
  j ∈ js -> j < length ri ->
  foldl (fun r j => <[j := f j]> r) ri js !! j = Some (f j).
Proof.
  revert ri; induction js as [|j' js IH]; intros ri Hj Hlen; cbn [foldl].
  - now apply elem_of_nil in Hj.
  - destruct (decide (j ∈ js)) as [Hin|Hnin].
    + apply IH; [exact Hin | now rewrite length_insert].
    + apply elem_of_cons in Hj as [->|Hj]; [|contradiction].
      rewrite lookup_fill_other by exact Hnin.
      now apply list_lookup_insert_eq.
Qed.

Lemma length_filled_row cols r2 r1 ri :
  length (filled_row cols r2 r1 ri) = length ri.
Proof. apply length_fill. Qed.

Lemma lookup_filled_row cols r2 r1 j :
  j + 1 < cols ->
  filled_row cols r2 r1 (zero_row cols) !! j = Some (entry r2 r1 j).
Proof.
  intros Hj. unfold filled_row. apply lookup_fill_in.
  - apply elem_of_seq. lia.
  - unfold zero_row. rewrite length_replicate. lia.
Qed.

Lemma lookup_filled_row_last cols r2 r1 :
  1 <= cols ->
  filled_row cols r2 r1 (zero_row cols) !! (cols - 1) = Some rzero.
Proof.
  intros Hc. unfold filled_row. rewrite lookup_fill_other.
  - apply lookup_replicate_2. lia.
  - rewrite elem_of_seq. lia.
Qed.

Lemma length_aux_row n cols i prev :
  length prev = cols -> length (aux_row n cols i prev) = cols.
Proof.
  intros H. unfold aux_row.
  rewrite length_app, length_replicate, length_imap. lia.
Qed.

Lemma length_next_row n cols i r2 r1 :
  length r1 = cols -> length (next_row n cols i r2 r1) = cols.
Proof.
  intros H. unfold next_row.
  destruct (forallb _ _); [now apply length_aux_row|].
  rewrite length_filled_row. apply length_replicate.
Qed.

(** *** The outer loop *)

Lemma for_each_app {A S} (body : A -> S -> result S) l1 l2 s :
  for_each body (l1 ++ l2) s = (s' <- for_each body l1 s ;; for_each body l2 s').
Proof.
  revert s; induction l1 as [|x l1 IH]; intros s; cbn; [reflexivity|].
  destruct (body x s); cbn; [apply IH | reflexivity].
Qed.

Lemma built_init (coeffs : row) :
  2 <= length coeffs ->
  built (length coeffs) 2 (first_row coeffs) (second_row coeffs)
    (<[1 := second_row coeffs]>
       (<[0 := first_row coeffs]>
          (replicate (length coeffs) (zero_row (ncols (length coeffs)))))).
Proof.
  intros Hn. split.
  - now rewrite !length_insert, length_replicate.
  - rewrite list_lookup_insert_ne by lia.
    apply list_lookup_insert_eq. rewrite length_replicate. lia.
  - apply list_lookup_insert_eq. rewrite length_insert, length_replicate. lia.
  - intros m r. destruct (decide (m = 1)) as [->|H1].
    { rewrite list_lookup_insert_eq by (rewrite length_insert, length_replicate; lia).
      intros [= <-]. apply length_second_row. }
    rewrite list_lookup_insert_ne by lia.
    destruct (decide (m = 0)) as [->|H0].
    { rewrite list_lookup_insert_eq by (rewrite length_replicate; lia).
      intros [= <-]. apply length_first_row. }
    rewrite list_lookup_insert_ne by lia.
    intros [-> _]%lookup_replicate. apply length_replicate.
  - intros m Hm. rewrite !list_lookup_insert_ne by lia.
    apply lookup_replicate_2. lia.
  - intros m Hm. lia.
Qed.

Lemma built_step n i r0 r1 (st : matrix) :
  2 <= i < n -> built n i r0 r1 st ->
  exists a b, st !! (i - 2) = Some a /\ st !! (i - 1) = Some b /\
    row_step n (ncols n) i st = Ok (<[i := next_row n (ncols n) i a b]> st) /\
    built n (i + 1) r0 r1 (<[i := next_row n (ncols n) i a b]> st).
Proof.
  intros Hi [Hlen H0 H1 Hw Ht Hd].
  destruct (lookup_lt_is_Some_2 st (i - 2) ltac:(lia)) as [a Ha].
  destruct (lookup_lt_is_Some_2 st (i - 1) ltac:(lia)) as [b Hb].
  exists a, b. split; [exact Ha|]. split; [exact Hb|].
  pose proof (ncols_bounds n) as Hc.
  split.
  - apply row_step_ok; try assumption; try lia.
    + apply Ht. lia.
    + now apply (Hw (i - 2)).
    + now apply (Hw (i - 1)).
  - split.
    + now rewrite length_insert.
    + rewrite list_lookup_insert_ne by lia. exact H0.
    + rewrite list_lookup_insert_ne by lia. exact H1.
    + intros m r. destruct (decide (m = i)) as [->|Hne].
      * rewrite list_lookup_insert_eq by lia. intros [= <-].
        apply length_next_row. now apply (Hw (i - 1)).
      * rewrite list_lookup_insert_ne by lia. apply Hw.
    + intros m Hm. rewrite list_lookup_insert_ne by lia. apply Ht. lia.
    + intros m Hm. destruct (decide (m = i)) as [->|Hne].
      * exists a, b. rewrite !list_lookup_insert_ne by lia.
        rewrite list_lookup_insert_eq by lia. auto.
      * destruct (Hd m ltac:(lia)) as (x & y & Hx & Hy & Hm').
        exists x, y. rewrite !list_lookup_insert_ne by lia. auto.
Qed.

Lemma outer_loop n r0 r1 k :
  forall i (st : matrix),
    2 <= i -> i + k <= n -> built n i r0 r1 st ->
    exists st', for_each (row_step n (ncols n)) (seq i k) st = Ok st' /\
                built n (i + k) r0 r1 st' /\
                forall m, m < i -> st' !! m = st !! m.
Proof.
  induction k as [|k IH]; intros i st Hi Hk Hb.
  - exists st. rewrite Nat.add_0_r. auto.
  - destruct (built_step n i r0 r1 st ltac:(lia) Hb) as (a & b & Ha & Hb' & Hstep & Hnext).
    cbn [seq for_each]. rewrite Hstep. cbn [bind].
    destruct (IH (S i) (<[i := next_row n (ncols n) i a b]> st))
      as (st' & Hrun & Hb'' & Hframe).
    + lia.
    + lia.
    + now replace (S i) with (i + 1) by lia.
    + exists st'. split; [exact Hrun|]. split.
      * now replace (i + S k) with (S i + k) by lia.
      * intros m Hm. rewrite Hframe by lia. apply list_lookup_insert_ne. lia.
Qed.

Lemma fill_rows_ok (coeffs : row) k :
  2 + k <= length coeffs ->
  exists st, fill_rows coeffs k = Ok st /\
             built (length coeffs) (2 + k) (first_row coeffs) (second_row coeffs) st.
Proof.
  intros Hk. unfold fill_rows. rewrite init_rows_ok by lia. cbn [bind].
  destruct (outer_loop (length coeffs) (first_row coeffs) (second_row coeffs) k 2
              _ ltac:(lia) Hk (built_init coeffs ltac:(lia))) as (st & Hrun & Hb & _).
  exists st. split; [exact Hrun | exact Hb].
Qed.

(** Rows already computed are not touched by later passes. *)
Lemma fill_rows_frame (coeffs : row) k k' st st' :
  k <= k' -> 2 + k' <= length coeffs ->
  fill_rows coeffs k = Ok st -> fill_rows coeffs k' = Ok st' ->
  forall m, m < 2 + k -> st' !! m = st !! m.
Proof.
  intros Hkk Hk' Hst Hst'.
  destruct (fill_rows_ok coeffs k ltac:(lia)) as (st0 & Hst0 & Hb).
  rewrite Hst in Hst0. injection Hst0 as <-.
  unfold fill_rows in Hst, Hst'. rewrite init_rows_ok in Hst, Hst' by lia.
  cbn [bind] in Hst, Hst'.
  replace k' with (k + (k' - k)) in Hst' by lia.
  rewrite seq_app, for_each_app, Hst in Hst'. cbn [bind] in Hst'.
  destruct (outer_loop (length coeffs) (first_row coeffs) (second_row coeffs)
              (k' - k) (2 + k) st ltac:(lia) ltac:(lia) Hb) as (st1 & Hrun & _ & Hframe).
  unfold ncols in Hrun. rewrite Hrun in Hst'. injection Hst' as <-. exact Hframe.
Qed.

(** *** Sign detection *)

Lemma comprehension_first_col (A : matrix) :
  Forall (fun r => 0 < length r) A ->
  comprehension (fun r : row => getitem r 0) A = Ok (first_col A).
Proof.
  induction 1 as [|r A Hr _ IH]; [reflexivity|].
  cbn [comprehension first_col map].
  destruct (lookup_lt_is_Some_2 r 0 Hr) as [x Hx].
  rewrite (getitem_Some _ _ _ Hx). cbn [bind].
  rewrite IH. cbn [bind]. now rewrite (at_col_Some _ _ _ Hx).
Qed.

Lemma Qeq_bool_0_Qsign x : Qeq_bool x 0 = true <-> Qsign x = 0%Z.
Proof.
  unfold Qeq_bool, Qsign. cbn [Qnum Qden]. rewrite Z.eqb_eq, Z.sgn_null_iff. lia.
Qed.

Lemma signs_of_eval (col : list rfun) :
  map Qsign (filter (fun x => negb (Qeq_bool x 0)) (map (fun v => reval v eps_val) col))
  = signs_of col.
Proof.
  unfold signs_of. induction col as [|v col IH]; [reflexivity|].
  cbn [map]. destruct (Qeq_bool (reval v eps_val) 0) eqn:Hv.
  - rewrite filter_cons_False by (rewrite Hv; exact id).
    rewrite filter_cons_False; [exact IH|].
    intros H. apply H. now apply Qeq_bool_0_Qsign.
  - rewrite filter_cons_True by (rewrite Hv; exact I).
    rewrite filter_cons_True.
    + cbn [map]. now rewrite IH.
    + unfold sign_at. intros H%Qeq_bool_0_Qsign. congruence.
Qed.

Lemma count_changes_ok (A : matrix) :
  Forall (fun r => 0 < length r) A ->
  count_changes A = Ok (sign_changes (signs_of (first_col A))).
Proof.
  intros H. unfold count_changes. rewrite comprehension_first_col by exact H.
  cbn [bind]. now rewrite signs_of_eval.
Qed.

Lemma sign_changes_nonneg signs : (0 <= sign_changes signs)%Z.
Proof.
  induction signs as [|s [|t signs] IH]; cbn [sign_changes]; try lia.
  cbn [sign_changes] in IH. destruct (s =? t)%Z; lia.
Qed.

(** *** The whole function *)

Lemma run_short (coeffs : list Q) :
  length coeffs < 2 -> routh_hurwitz_symbolic coeffs = Err IndexError.
Proof.
  intros Hn. unfold routh_hurwitz_symbolic, fill_rows.
  rewrite init_rows_short by now rewrite length_map. reflexivity.
Qed.

Lemma run_ok (coeffs : list Q) :
  2 <= length coeffs ->
  exists A,
    routh_hurwitz_symbolic coeffs = Ok (A, sign_changes (signs_of (first_col A))) /\
    fill_rows (map sympify coeffs) (length coeffs - 2) = Ok A /\
    built (length coeffs) (length coeffs)
      (first_row (map sympify coeffs)) (second_row (map sympify coeffs)) A.
Proof.
  intros Hn. unfold routh_hurwitz_symbolic.
  destruct (fill_rows_ok (map sympify coeffs) (length coeffs - 2)) as (A & HA & Hb).
  { rewrite length_map. lia. }
  rewrite length_map in *. replace (2 + (length coeffs - 2)) with (length coeffs) in Hb by lia.
  exists A. rewrite HA. cbn [bind]. rewrite count_changes_ok.
  - cbn [bind]. auto.
  - apply Forall_lookup. intros m r Hr.
    rewrite (built_width _ _ _ _ _ Hb m r Hr).
    pose proof (ncols_bounds (length coeffs)). lia.
Qed.

End LoopFacts.

(** ** Every stored expression is defined *)

Module Defined.
Import Poly Expr Py Routh RowForms PolyFacts ExprFacts LoopFacts.
Local Open Scope nat_scope.

Lemma wf_at_col (r : row) j : Forall wf r -> wf (at_col r j).
Proof.
  intros H. unfold at_col. destruct (r !! j) as [x|] eqn:Hx; [|exact wf_rzero].
  exact (proj1 (Forall_lookup _ _) H j x Hx).
Qed.

Lemma wf_pivot_or_eps c : wf c -> wf (pivot_or_eps c).
Proof. unfold pivot_or_eps. destruct (is_zero c); [intros _; exact wf_eps | exact id]. Qed.

Lemma wf_entry (r2 r1 : row) j : Forall wf r2 -> Forall wf r1 -> wf (entry r2 r1 j).
Proof.
  intros H2 H1. unfold entry. apply wf_simplify, wf_rdiv_raw.
  - apply wf_rsub; apply wf_rmul; auto using wf_at_col, wf_pivot_or_eps.
  - apply pivot_or_eps_nonzero.
Qed.

Lemma wf_fill (f : nat -> rfun) (js : list nat) (ri : row) :
  (forall j, wf (f j)) -> Forall wf ri ->
  Forall wf (foldl (fun r j => <[j := f j]> r) ri js).
Proof.
  intros Hf. revert ri; induction js as [|j js IH]; intros ri Hri; cbn [foldl]; [exact Hri|].
  apply IH. now apply Forall_insert.
Qed.

Lemma wf_zero_row cols : Forall wf (zero_row cols).
Proof. apply Forall_replicate. exact wf_rzero. Qed.

Lemma wf_aux_row n cols i (prev : row) : Forall wf prev -> Forall wf (aux_row n cols i prev).
Proof.
  intros H. unfold aux_row. apply Forall_app. split.
  - apply Forall_lookup. intros k x. rewrite list_lookup_imap.
    destruct (prev !! k) as [y|] eqn:Hy; [|discriminate]. intros [= <-].
    apply wf_rscale. exact (proj1 (Forall_lookup _ _) H k y Hy).
  - apply Forall_replicate. exact wf_rzero.
Qed.

Lemma wf_next_row n cols i (r2 r1 : row) :
  Forall wf r2 -> Forall wf r1 -> Forall wf (next_row n cols i r2 r1).
Proof.
  intros H2 H1. unfold next_row. destruct (forallb _ _).
  - now apply wf_aux_row.
  - apply wf_fill; [intros j; now apply wf_entry | apply wf_zero_row].
Qed.

Lemma wf_built n i r0 r1 (st : matrix) :
  built n i r0 r1 st -> Forall wf r0 -> Forall wf r1 -> Forall (Forall wf) st.
Proof.
  intros Hb H0 H1. apply Forall_lookup. intros m.
  induction m as [m IH] using lt_wf_ind. intros r Hr.
  pose proof (lookup_lt_Some _ _ _ Hr) as Hm.
  rewrite (built_length _ _ _ _ _ Hb) in Hm.
  destruct (decide (m = 0)) as [->|Hm0].
  { rewrite (built_first _ _ _ _ _ Hb) in Hr. now injection Hr as <-. }
  destruct (decide (m = 1)) as [->|Hm1].
  { rewrite (built_second _ _ _ _ _ Hb) in Hr. now injection Hr as <-. }
  destruct (decide (m < i)) as [Hlt|Hge].
  - destruct (built_done _ _ _ _ _ Hb m ltac:(lia)) as (a & b & Ha & Hb' & Hm').
    rewrite Hm' in Hr. injection Hr as <-.
    apply wf_next_row; [apply (IH (m - 2)) | apply (IH (m - 1))]; (lia || assumption).
  - rewrite (built_todo _ _ _ _ _ Hb m ltac:(lia)) in Hr. injection Hr as <-.
    apply wf_zero_row.
Qed.

Lemma wf_stride2 (l : row) : Forall wf l -> Forall wf (stride2 l).
Proof.
  intros H. apply Forall_lookup. intros k x. rewrite lookup_stride2.
  apply (proj1 (Forall_lookup _ _) H).
Qed.

Lemma wf_sympified (coeffs : list Q) : Forall wf (map sympify coeffs).
Proof. apply Forall_map, Forall_forall. intros c _. apply wf_sympify. Qed.

Lemma wf_first_row (coeffs : list Q) : Forall wf (first_row (map sympify coeffs)).
Proof.
  unfold first_row. apply Forall_app. split.
  - apply wf_stride2, wf_sympified.
  - apply Forall_replicate, wf_rzero.
Qed.

Lemma wf_second_row (coeffs : list Q) : Forall wf (second_row (map sympify coeffs)).
Proof.
  unfold second_row. apply Forall_app. split.
  - apply wf_stride2, Forall_drop, wf_sympified.
  - apply Forall_replicate, wf_rzero.
Qed.

End Defined.

(** ** Signs in the limit ε → 0+ *)

Module LimitFacts.
Import Poly Expr Py Routh RowForms PolyFacts ExprFacts.

Lemma pbound_nonneg p : 0 <= pbound p.
Proof. induction p as [|c p IH]; cbn [pbound foldr]; [lia|]. fold (pbound p). lia. Qed.

Lemma inject_Z_abs_bounds c : (- inject_Z (Z.abs c) <= inject_Z c <= inject_Z (Z.abs c))%Q.
Proof.
  rewrite <- inject_Z_opp. split; rewrite <- Zle_Qle; lia.
Qed.

Lemma peval_bounded p x :
  (0 <= x)%Q -> (x <= 1)%Q ->
  (- inject_Z (pbound p) <= peval p x <= inject_Z (pbound p))%Q.
Proof.
  intros H0 H1. induction p as [|c p IH]; cbn [pbound foldr peval].
  - change (inject_Z 0) with 0%Q. lra.
  - fold (pbound p). rewrite inject_Z_plus.
    pose proof (inject_Z_abs_bounds c) as Hc.
    assert (0 <= inject_Z (pbound p))%Q as Hb.
    { change 0%Q with (inject_Z 0). rewrite <- Zle_Qle. apply pbound_nonneg. }
    nra.
Qed.
Lemma Qsign_mult x y : Qsign (x * y) = Qsign x * Qsign y.
Proof. unfold Qsign. cbn [Qmult Qnum]. apply Z.sgn_mul. Qed.

Lemma Qsign_inv x : Qsign (/ x) = Qsign x.
Proof. destruct x as [[|p|p] d]; reflexivity. Qed.

Lemma Qsign_div x y : Qsign (x / y) = Qsign x * Qsign y.
Proof. unfold Qdiv. now rewrite Qsign_mult, Qsign_inv. Qed.

Lemma low_term_zero p : pzero_b p = true -> snd (low_term p) = 0.
Proof.
  induction p as [|c p IH]; [reflexivity|].
  intros [-> Hp]%pzero_b_cons_true. cbn [low_term]. cbn [Z.eqb].
  specialize (IH Hp). destruct (low_term p). exact IH.
Qed.

(** Close enough to 0 on the positive side, a non-zero polynomial has the
    sign of its lowest-order non-zero coefficient. *)
Lemma peval_low_sign p :
  pzero_b p = false ->
  exists delta : Q, (0 < delta)%Q /\
    forall x, (0 < x)%Q -> (x < delta)%Q ->
              Qsign (peval p x) = Z.sgn (snd (low_term p)).
Proof.
  induction p as [|c p IH]; [discriminate|].
  rewrite pzero_b_cons. cbn [low_term peval].
  destruct (Z.eqb_spec c 0) as [->|Hc].
  - cbn [Z.eqb andb]. intros Hp. destruct (IH Hp) as (delta & Hd & Hsign).
    exists delta. split; [exact Hd|]. intros x Hx0 Hx1.
    destruct (low_term p) as [v a] eqn:Hlow. cbn [snd] in *.
    rewrite <- (Hsign x Hx0 Hx1).
    rewrite (Qsign_Qeq _ (x * peval p x)) by (change (inject_Z 0) with 0%Q; ring).
    rewrite Qsign_mult, (Qsign_pos x Hx0). lia.
  - intros _. cbn [snd].
    set (B := pbound p). pose proof (pbound_nonneg p) as HB. fold B in HB.
    assert (HB1 : (0 < inject_Z (B + 1))%Q)
      by (change 0%Q with (inject_Z 0); rewrite <- Zlt_Qlt; lia).
    exists (/ inject_Z (B + 1))%Q. split; [now apply Qinv_lt_0_compat|].
    intros x Hx0 Hx1.
    assert (Hx1' : (x * inject_Z (B + 1) < 1)%Q).
    { assert (E : (/ inject_Z (B + 1) * inject_Z (B + 1) == 1)%Q).
      { rewrite Qmult_comm. apply Qmult_inv_r. lra. }
      rewrite <- E. now apply Qmult_lt_compat_r. }
    rewrite inject_Z_plus in Hx1'. change (inject_Z 1) with 1%Q in Hx1'.
    assert (Hx2 : (x <= 1)%Q).
    { assert (0 <= inject_Z B)%Q
        by (change 0%Q with (inject_Z 0); rewrite <- Zle_Qle; lia). nra. }
    pose proof (peval_bounded p x (Qlt_le_weak _ _ Hx0) Hx2) as Hy. fold B in Hy.
    assert (0 <= inject_Z B)%Q as HBq
      by (change 0%Q with (inject_Z 0); rewrite <- Zle_Qle; lia).
    destruct (Z.lt_total c 0) as [Hneg | [Hzero | Hpos]]; [| contradiction |].
    + assert (inject_Z c <= -1)%Q as Hcq
        by (change (-1)%Q with (inject_Z (-1)); rewrite <- Zle_Qle; lia).
      rewrite Qsign_neg by nra. now rewrite Z.sgn_neg.
    + assert (1 <= inject_Z c)%Q as Hcq
        by (change 1%Q with (inject_Z 1); rewrite <- Zle_Qle; lia).
      rewrite Qsign_pos by nra. now rewrite Z.sgn_pos.
Qed.

(** The sign of a non-vanishing limit is the sign the expression has for
    every small enough positive ε. *)
Lemma limit_sign_sound (v : rfun) :
  wf v -> limit_sign v <> 0 ->
  exists delta : Q, (0 < delta)%Q /\
    forall x, (0 < x)%Q -> (x < delta)%Q -> Qsign (reval v x) = limit_sign v.
Proof.
  intros Hwf Hlim.
  assert (Hn : pzero_b (num v) = false).
  { apply not_true_iff_false. intros Hz. apply Hlim. unfold limit_sign.
    pose proof (low_term_zero _ Hz) as Ha.
    destruct (low_term (num v)) as [vn an], (low_term (den v)) as [vd ad].
    cbn [snd] in Ha. subst an. now destruct (vd <? vn)%nat. }
  destruct (peval_low_sign _ Hn) as (d1 & Hd1 & H1).
  destruct (peval_low_sign _ Hwf) as (d2 & Hd2 & H2).
  exists (if Qlt_le_dec d1 d2 then d1 else d2).
  split; [now destruct (Qlt_le_dec d1 d2)|].
  intros x Hx0 Hx1. destruct (Qlt_le_dec d1 d2) as [Hlt|Hle].
  all: unfold reval; rewrite Qsign_div, H1, H2 by (try assumption; lra).
  all: unfold limit_sign in *.
  all: destruct (low_term (num v)) as [vn an], (low_term (den v)) as [vd ad].
  all: cbn [snd]; destruct (vd <? vn)%nat; [contradiction | reflexivity].
Qed.

End LimitFacts.

(** ** Properties of [routh_hurwitz_symbolic] *)

Module Claims.
Import Poly Expr Py Routh RowForms PolyFacts ExprFacts LoopFacts Defined.
Local Open Scope nat_scope.

(** *** What a normal return tells *)

Lemma run_inv (coeffs : list Q) A cnt :
  routh_hurwitz_symbolic coeffs = Ok (A, cnt) ->
  2 <= length coeffs /\
  fill_rows (map sympify coeffs) (length coeffs - 2) = Ok A /\
  built (length coeffs) (length coeffs)
    (first_row (map sympify coeffs)) (second_row (map sympify coeffs)) A /\
  cnt = sign_changes (signs_of (first_col A)).
Proof.
  intros Hrun. destruct (le_lt_dec 2 (length coeffs)) as [Hn|Hn].
  - destruct (run_ok coeffs Hn) as (A' & Hrun' & Hfill & Hb).
    rewrite Hrun in Hrun'. injection Hrun' as <- ->. auto.
  - rewrite run_short in Hrun by exact Hn. discriminate.
Qed.

Lemma run_Err (coeffs : list Q) e :
  routh_hurwitz_symbolic coeffs = Err e -> length coeffs < 2 /\ e = IndexError.
Proof.
  intros Hrun. destruct (le_lt_dec 2 (length coeffs)) as [Hn|Hn].
  - destruct (run_ok coeffs Hn) as (A & HA & _). congruence.
  - rewrite run_short in Hrun by exact Hn. split; [exact Hn | congruence].
Qed.

Lemma built_row n r0 r1 (A : matrix) i :
  built n n r0 r1 A -> 2 <= i < n ->
  exists r2 r1', A !! (i - 2) = Some r2 /\ A !! (i - 1) = Some r1' /\
                 A !! i = Some (next_row n (ncols n) i r2 r1') /\
                 length r2 = ncols n /\ length r1' = ncols n.
Proof.
  intros Hb Hi. destruct (built_done _ _ _ _ _ Hb i Hi) as (a & b & Ha & Hb' & Hi').
  exists a, b. repeat split; try assumption.
  - exact (built_width _ _ _ _ _ Hb _ _ Ha).
  - exact (built_width _ _ _ _ _ Hb _ _ Hb').
Qed.

Lemma entry_formula (A : matrix) i j r2 r1 :
  A !! (i - 2) = Some r2 -> A !! (i - 1) = Some r1 ->
  entry r2 r1 j = simplify (formula A i j).
Proof. intros H2 H1. unfold entry, formula, cell. now rewrite H2, H1. Qed.

Lemma forallb_lookup {X} (f : X -> bool) (l : list X) :
  forallb f l = true <-> forall k x, l !! k = Some x -> f x = true.
Proof.
  rewrite forallb_forall. split.
  - intros H k x Hx. apply H, list_elem_of_In, list_elem_of_lookup. eauto.
  - intros H x [k Hk]%list_elem_of_In%list_elem_of_lookup. eauto.
Qed.

(** The row-of-zeros test on a freshly filled row looks at the computed
    entries only: the last column still holds the initial zero. *)
Lemma filled_row_all_zero cols r2 r1 :
  1 <= cols ->
  forallb is_zero (filled_row cols r2 r1 (zero_row cols)) = true <->
  forall j, j + 2 <= cols -> is_zero (entry r2 r1 j) = true.
Proof.
  intros Hc. rewrite forallb_lookup. split.
  - intros H j Hj. apply (H j). apply lookup_filled_row. lia.
  - intros H k x Hx. pose proof (lookup_lt_Some _ _ _ Hx) as Hk.
    rewrite length_filled_row in Hk. unfold zero_row in Hk. rewrite length_replicate in Hk.
    destruct (decide (k + 1 < cols)) as [Hlt|Hge].
    + rewrite lookup_filled_row in Hx by exact Hlt. injection Hx as <-. apply H. lia.
    + replace k with (cols - 1) in Hx by lia.
      rewrite lookup_filled_row_last in Hx by exact Hc. now injection Hx as <-.
Qed.

Lemma wf_cell (A : matrix) i j : Forall (Forall wf) A -> wf (cell A i j).
Proof.
  intros H. unfold cell. apply wf_at_col.
  destruct (A !! i) as [r|] eqn:Hr; [|constructor].
  exact (proj1 (Forall_lookup _ _) H i r Hr).
Qed.

Lemma wf_formula (A : matrix) i j : Forall (Forall wf) A -> wf (formula A i j).
Proof.
  intros H. unfold formula. apply wf_rdiv_raw.
  - apply wf_rsub; apply wf_rmul; auto using wf_cell, wf_pivot_or_eps.
  - apply pivot_or_eps_nonzero.
Qed.

(** *** Step 3: the entries of a computed row *)

(** C2, amended.  In the returned array, for a row [2 <= i <= n-1] whose
    computed entries are not all zero, and a column [j <= c-2], the entry
    [array[i][j]] is the reduced form of [(pivot·b − a·d) / pivot] taken on
    the two rows above (ε in place of a zero pivot); it equals that
    expression as an exact rational function of ε, and both are defined. *)
Theorem C2_entry_formula (coeffs : list Q) (A : matrix) (cnt : Z) (i j : nat) :
  routh_hurwitz_symbolic coeffs = Ok (A, cnt) ->
  2 <= i < length coeffs ->
  j + 2 <= ncols (length coeffs) ->
  (exists j', j' + 2 <= ncols (length coeffs) /\
               is_zero (simplify (formula A i j')) = false) ->
  cell A i j = simplify (formula A i j) /\
  req (cell A i j) (formula A i j) /\
  wf (cell A i j) /\ wf (formula A i j).
Proof.
  intros Hrun Hi Hj (j' & Hj' & Hnz).
  destruct (run_inv _ _ _ Hrun) as (Hn & _ & Hb & _).
  destruct (built_row _ _ _ _ i Hb Hi) as (r2 & r1 & H2 & H1 & Hrow & L2 & L1).
  assert (Hwf : Forall (Forall wf) A)
    by exact (wf_built _ _ _ _ _ Hb (wf_first_row coeffs) (wf_second_row coeffs)).
  assert (Hcell : cell A i j = simplify (formula A i j)).
  { unfold next_row in Hrow.
    destruct (forallb is_zero (filled_row _ r2 r1 _)) eqn:Hall.
    - pose proof (ncols_bounds (length coeffs)) as Hc.
      assert (Hc1 : 1 <= ncols (length coeffs)) by lia.
      pose proof (proj1 (filled_row_all_zero _ r2 r1 Hc1) Hall j' Hj') as Hall'.
      clear Hall. rename Hall' into Hall.
      rewrite (entry_formula A i j' r2 r1 H2 H1) in Hall. congruence.
    - rewrite <- (entry_formula A i j r2 r1 H2 H1).
      apply (cell_Some A i j _ _ Hrow). apply lookup_filled_row. lia. }
  split; [exact Hcell|]. split; [|split].
  - rewrite Hcell. apply simplify_req.
  - now apply wf_cell.
  - now apply wf_formula.
Qed.

(** C2 as stated fails: for [s³ + s² + s + 1] the computed row 2 is all zero
    and is replaced, so [array[2][0]] is 2 while the formula gives 0. *)
Lemma C2_counterexample :
  exists A cnt, routh_hurwitz_symbolic [1; 1; 1; 1]%Q = Ok (A, cnt) /\
                cell A 2 0 = sympify 2 /\
                is_zero (formula A 2 0) = true /\
                ~ req (cell A 2 0) (formula A 2 0).
Proof.
  eexists _, _. split; [vm_compute; reflexivity|].
  split; [vm_compute; reflexivity|]. split; [vm_compute; reflexivity|].
  intros H. specialize (H 0%Q). vm_compute in H. discriminate.
Qed.

Lemma C2_entry_formula_witness :
  exists A cnt, routh_hurwitz_symbolic [1; 2; 3; 4; 5]%Q = Ok (A, cnt) /\
                cell A 3 0 = simplify (formula A 3 0) /\
                req (cell A 3 0) (formula A 3 0) /\
                wf (cell A 3 0) /\ wf (formula A 3 0).
Proof.
  eexists _, _. split; [vm_compute; reflexivity|].
  apply (C2_entry_formula [1; 2; 3; 4; 5]%Q _ 2%Z 3 0).
  - vm_compute; reflexivity.
  - simpl; lia.
  - unfold ncols; simpl; lia.
  - exists O. split; [unfold ncols; simpl; lia | vm_compute; reflexivity].
Defined.

(** *** Step 4: the row-of-zeros rule *)

(** C4.  In the returned array, whenever every entry computed for a row
    [2 <= i <= n-1] is zero, the row holds the derivative of the auxiliary
    polynomial of the row above: column [k] is [prev[k] · (order − 2k)] with
    [order = n − i], and the row has width [c]. *)
Theorem C4_zero_row_replaced (coeffs : list Q) (A : matrix) (cnt : Z) (i : nat) :
  routh_hurwitz_symbolic coeffs = Ok (A, cnt) ->
  2 <= i < length coeffs ->
  (forall j, j + 2 <= ncols (length coeffs) -> is_zero (simplify (formula A i j)) = true) ->
  (exists ri, A !! i = Some ri /\ length ri = ncols (length coeffs)) /\
  forall k, k < ncols (length coeffs) ->
    cell A i k =
    rscale (Z.of_nat (length coeffs) - Z.of_nat i - 2 * Z.of_nat k) (cell A (i - 1) k).
Proof.
  intros Hrun Hi Hall.
  destruct (run_inv _ _ _ Hrun) as (Hn & _ & Hb & _).
  destruct (built_row _ _ _ _ i Hb Hi) as (r2 & r1 & H2 & H1 & Hrow & L2 & L1).
  pose proof (ncols_bounds (length coeffs)) as Hc.
  assert (Hz : forallb is_zero (filled_row (ncols (length coeffs)) r2 r1
                                  (zero_row (ncols (length coeffs)))) = true).
  { apply filled_row_all_zero; [lia|]. intros j Hj.
    rewrite (entry_formula A i j r2 r1 H2 H1). now apply Hall. }
  unfold next_row in Hrow. rewrite Hz in Hrow. split.
  - eexists. split; [exact Hrow|]. now apply length_aux_row.
  - intros k Hk.
    destruct (lookup_lt_is_Some_2 r1 k ltac:(lia)) as [x Hx].
    rewrite (cell_Some A (i - 1) k r1 x H1 Hx).
    apply (cell_Some A i k _ _ Hrow). unfold aux_row.
    rewrite lookup_app_l by (rewrite length_imap; lia).
    rewrite list_lookup_imap, Hx. reflexivity.
Qed.

Lemma C4_zero_row_replaced_witness :
  exists A cnt, routh_hurwitz_symbolic [1; 1; 1; 1]%Q = Ok (A, cnt) /\
    cell A 2 0 = rscale (4 - 2 - 2 * 0) (cell A 1 0).
Proof.
  eexists _, _. split; [vm_compute; reflexivity|].
  refine (proj2 (C4_zero_row_replaced [1; 1; 1; 1]%Q _ 0%Z 2 _ _ _) 0 _).
  - vm_compute; reflexivity.
  - simpl; lia.
  - intros [|j] Hj; [vm_compute; reflexivity | unfold ncols in Hj; simpl in Hj; lia].
  - unfold ncols; simpl; lia.
Defined.

(** *** Steps 1 and 2: shape and the first two rows *)

Lemma lookup_first_row (l : row) k :
  k < ncols (length l) ->
  first_row l !! k = Some (default rzero (l !! (2 * k))).
Proof.
  intros Hk. unfold first_row. fold (ncols (length l)).
  pose proof (ncols_bounds (length l)) as Hc.
  pose proof (length_stride2 l) as Hs. fold (ncols (length l)) in Hs.
  rewrite lookup_app_l by lia. rewrite lookup_stride2.
  destruct (lookup_lt_is_Some_2 l (2 * k) ltac:(unfold ncols in *; lia)) as [x ->].
  reflexivity.
Qed.

Lemma lookup_second_row (l : row) k :
  k < ncols (length l) ->
  second_row l !! k = Some (default rzero (l !! (2 * k + 1))).
Proof.
  intros Hk. unfold second_row. fold (ncols (length l)).
  pose proof (length_stride2 (drop 1 l)) as Hs. rewrite length_drop in Hs.
  pose proof (Nat.div_mod_eq (length l - 1 + 1) 2) as Hd.
  pose proof (Nat.mod_upper_bound (length l - 1 + 1) 2 ltac:(lia)) as Hm.
  pose proof (ncols_bounds (length l)) as Hc.
  destruct (decide (2 * k + 1 < length l)) as [Hin|Hout].
  - rewrite lookup_app_l by lia.
    rewrite lookup_stride2, lookup_drop.
    replace (1 + 2 * k) with (2 * k + 1) by lia.
    destruct (lookup_lt_is_Some_2 l (2 * k + 1) Hin) as [x ->]. reflexivity.
  - rewrite lookup_app_r by lia.
    rewrite (proj2 (lookup_ge_None l (2 * k + 1))) by lia.
    apply lookup_replicate_2. lia.
Qed.

(** C5.  Row 0 of the returned array holds the coefficients at even offsets
    and row 1 those at odd offsets, each filled with zeros up to the width
    [c = (n + 1) // 2], which is the ceiling of [n / 2]. *)
Theorem C5_first_two_rows (coeffs : list Q) (A : matrix) (cnt : Z) :
  routh_hurwitz_symbolic coeffs = Ok (A, cnt) ->
  let n := length coeffs in
  let c := ncols n in
  n <= 2 * c <= n + 1 /\
  exists r0 r1,
    A !! 0 = Some r0 /\ A !! 1 = Some r1 /\ length r0 = c /\ length r1 = c /\
    forall k, k < c ->
      r0 !! k = Some (default rzero (sympify <$> coeffs !! (2 * k))) /\
      r1 !! k = Some (default rzero (sympify <$> coeffs !! (2 * k + 1))).
Proof.
  intros Hrun n c. destruct (run_inv _ _ _ Hrun) as (Hn & _ & Hb & _).
  split; [apply ncols_bounds|].
  exists (first_row (map sympify coeffs)), (second_row (map sympify coeffs)).
  split; [exact (built_first _ _ _ _ _ Hb)|].
  split; [exact (built_second _ _ _ _ _ Hb)|].
  split; [now rewrite length_first_row, length_map|].
  split; [now rewrite length_second_row, length_map|].
  intros k Hk. split.
  - rewrite lookup_first_row by now rewrite length_map.
    now rewrite list_lookup_fmap.
  - rewrite lookup_second_row by now rewrite length_map.
    now rewrite list_lookup_fmap.
Qed.

Lemma C5_first_two_rows_witness :
  exists A cnt, routh_hurwitz_symbolic [1; 2; 3; 4; 5]%Q = Ok (A, cnt) /\
    let n := 5 in
    let c := ncols n in
    n <= 2 * c <= n + 1 /\
    exists r0 r1,
      A !! 0 = Some r0 /\ A !! 1 = Some r1 /\ length r0 = c /\ length r1 = c /\
      forall k, k < c ->
        r0 !! k = Some (default rzero (sympify <$> [1; 2; 3; 4; 5]%Q !! (2 * k))) /\
        r1 !! k = Some (default rzero (sympify <$> [1; 2; 3; 4; 5]%Q !! (2 * k + 1))).
Proof.
  eexists _, _. split; [vm_compute; reflexivity|].
  apply (C5_first_two_rows [1; 2; 3; 4; 5]%Q _ 2%Z).
  vm_compute; reflexivity.
Defined.

(** *** Failure and normal return *)

(** C6, amended.  The builder fails exactly when the coefficient sequence has
    fewer than two entries, and then with the index error raised while the
    first two rows are stored; there is no check of the leading coefficient. *)
Theorem C6_failure_iff_short (coeffs : list Q) (e : error) :
  routh_hurwitz_symbolic coeffs = Err e <-> (length coeffs < 2 /\ e = IndexError).
Proof.
  split; [apply run_Err|]. intros [Hn ->]. now apply run_short.
Qed.

(** C6 as stated fails in both directions: a zero leading coefficient is
    accepted, and a single non-zero coefficient is rejected. *)
Lemma C6_counterexample :
  (exists res, routh_hurwitz_symbolic [0; 1; 2]%Q = Ok res) /\
  routh_hurwitz_symbolic [5]%Q = Err IndexError.
Proof. split; [eexists; vm_compute; reflexivity | reflexivity]. Qed.

Lemma C6_failure_iff_short_witness :
  routh_hurwitz_symbolic [5]%Q = Err IndexError.
Proof.
  apply (proj2 (C6_failure_iff_short [5]%Q IndexError)).
  split; [simpl; lia | reflexivity].
Defined.

(** C7, amended.  For every coefficient sequence of length [n >= 2] with a
    non-zero leading coefficient the builder returns normally, with a table
    of exactly [n] rows, each of width [ceil(n/2)], and a non-negative
    count. *)
Theorem C7_shape (coeffs : list Q) :
  2 <= length coeffs ->
  ~ (hd 0%Q coeffs == 0)%Q ->
  exists A cnt,
    routh_hurwitz_symbolic coeffs = Ok (A, cnt) /\
    length A = length coeffs /\
    Forall (fun r => length r = ncols (length coeffs)) A /\
    length coeffs <= 2 * ncols (length coeffs) <= length coeffs + 1 /\
    (0 <= cnt)%Z.
Proof.
  intros Hn _. destruct (run_ok coeffs Hn) as (A & Hrun & _ & Hb).
  exists A, (sign_changes (signs_of (first_col A))).
  split; [exact Hrun|]. split; [exact (built_length _ _ _ _ _ Hb)|].
  split; [|split; [apply ncols_bounds | apply sign_changes_nonneg]].
  apply Forall_lookup. intros m r. apply (built_width _ _ _ _ _ Hb).
Qed.

(** C7 as stated fails for a single coefficient: the builder raises. *)
Lemma C7_counterexample :
  ~ (hd 0%Q [5]%Q == 0)%Q /\
  ~ exists res, routh_hurwitz_symbolic [5]%Q = Ok res.
Proof.
  split; [intros H; vm_compute in H; discriminate|].
  intros [res H]. vm_compute in H. discriminate.
Qed.

Lemma C7_shape_witness :
  exists A cnt,
    routh_hurwitz_symbolic [1; -3; 2]%Q = Ok (A, cnt) /\
    length A = 3 /\
    Forall (fun r => length r = ncols 3) A /\
    3 <= 2 * ncols 3 <= 3 + 1 /\
    (0 <= cnt)%Z.
Proof.
  apply (C7_shape [1; -3; 2]%Q).
  - simpl; lia.
  - intros H; vm_compute in H; discriminate.
Defined.

(** *** The zero-pivot guard *)

Lemma getitem_Err {X} (l : list X) i e : getitem l i = Err e -> e = IndexError.
Proof. unfold getitem. destruct (l !! i); [discriminate | congruence]. Qed.

Lemma setitem_Err {X} (l : list X) i x e : setitem l i x = Err e -> e = IndexError.
Proof. unfold setitem. destruct (_ <? _); [discriminate | congruence]. Qed.

Lemma cell_step_Err i j (st : matrix) e : cell_step i j st = Err e -> e = IndexError.
Proof.
  unfold cell_step.
  repeat match goal with
  | |- bind (getitem ?l ?k) _ = _ -> _ =>
      let H := fresh "H" in
      destruct (getitem l k) eqn:H; cbn [bind];
      [| intros [= <-]; exact (getitem_Err _ _ _ H)]
  end.
  rewrite rdiv_pivot. cbn [bind].
  repeat match goal with
  | |- bind (getitem ?l ?k) _ = _ -> _ =>
      let H := fresh "H" in
      destruct (getitem l k) eqn:H; cbn [bind];
      [| intros [= <-]; exact (getitem_Err _ _ _ H)]
  | |- bind (setitem ?l ?k ?x) _ = _ -> _ =>
      let H := fresh "H" in
      destruct (setitem l k x) eqn:H; cbn [bind];
      [| intros [= <-]; exact (setitem_Err _ _ _ _ H)]
  end.
  apply setitem_Err.
Qed.

(** C8.  The divisor of step 3 is never zero: a zero pivot is replaced by ε
    before the division, so no assignment of the inner loop and no run of
    the builder ends in a division by zero, and every entry of a returned
    array is a defined expression. *)
Theorem C8_no_division_by_zero (coeffs : list Q) (i j : nat) (st : matrix) (c : rfun) :
  pivot_or_eps c = (if is_zero c then eps else c) /\
  is_zero (pivot_or_eps c) = false /\
  (forall x, rdiv x (pivot_or_eps c) = Ok (rdiv_raw x (pivot_or_eps c))) /\
  match cell_step i j st with
  | Ok _ => True
  | Err e => e = IndexError
  end /\
  match routh_hurwitz_symbolic coeffs with
  | Ok (A, _) => Forall (Forall wf) A
  | Err e => e = IndexError
  end.
Proof.
  split; [reflexivity|]. split; [apply pivot_or_eps_nonzero|].
  split; [intros x; apply rdiv_pivot|]. split.
  - destruct (cell_step i j st) eqn:H; [exact I | exact (cell_step_Err _ _ _ _ H)].
  - destruct (routh_hurwitz_symbolic coeffs) as [[A cnt]|e] eqn:Hrun.
    + destruct (run_inv _ _ _ Hrun) as (_ & _ & Hb & _).
      exact (wf_built _ _ _ _ _ Hb (wf_first_row coeffs) (wf_second_row coeffs)).
    + now apply run_Err in Hrun.
Qed.

(** *** Step 5: signs of the first column *)

Lemma Qsign_zero_iff x : Qsign x = 0%Z <-> (x == 0)%Q.
Proof.
  rewrite <- Qeq_bool_0_Qsign. split; [apply Qeq_bool_eq | apply Qeq_eq_bool].
Qed.

Lemma sign_at_sympify a : sign_at (sympify a) = Qsign a.
Proof. unfold sign_at. apply Qsign_Qeq, reval_sympify. Qed.

Lemma sign_at_zero v : is_zero v = true -> sign_at v = 0%Z.
Proof.
  intros Hz. unfold sign_at. apply Qsign_zero_iff. unfold reval.
  rewrite (pzero_b_peval (num v) eps_val Hz). unfold Qdiv. ring.
Qed.

Lemma signs_of_cons v col :
  signs_of (v :: col) = if decide (sign_at v = 0%Z) then signs_of col
                        else sign_at v :: signs_of col.
Proof.
  unfold signs_of. cbn [map]. destruct (decide (sign_at v = 0%Z)) as [H|H].
  - now rewrite filter_cons_False by (intros H'; now apply H').
  - now rewrite filter_cons_True by exact H.
Qed.



Lemma fill_rows_two (s0 s1 : rfun) : fill_rows [s0; s1] 0 = Ok [[s0]; [s1]].
Proof. reflexivity. Qed.

(** C9.  For a degree-1 input [[a0, a1]] with both coefficients non-zero the
    count is 0 when they have the same sign and 1 when the signs differ. *)
Theorem C9_degree_one (a0 a1 : Q) :
  ~ (a0 == 0)%Q -> ~ (a1 == 0)%Q ->
  exists A,
    routh_hurwitz_symbolic [a0; a1] =
    Ok (A, if (Qsign a0 =? Qsign a1)%Z then 0%Z else 1%Z).
Proof.
  intros H0 H1. exists [[sympify a0]; [sympify a1]].
  unfold routh_hurwitz_symbolic. cbn [map length Nat.sub].
  rewrite fill_rows_two. cbn [bind].
  rewrite count_changes_ok by (repeat constructor).
  cbn [bind].
  change (first_col [[sympify a0]; [sympify a1]]) with [sympify a0; sympify a1].
  rewrite !signs_of_cons, !sign_at_sympify.
  change (signs_of []) with (@nil Z).
  destruct (decide (Qsign a0 = 0%Z)) as [E|_]; [now apply Qsign_zero_iff in E|].
  destruct (decide (Qsign a1 = 0%Z)) as [E|_]; [now apply Qsign_zero_iff in E|].
  cbn [sign_changes]. now rewrite Z.add_0_r.
Qed.

Lemma C9_degree_one_witness :
  (exists A, routh_hurwitz_symbolic [2; 3]%Q = Ok (A, 0%Z)) /\
  (exists A, routh_hurwitz_symbolic [2; -3]%Q = Ok (A, 1%Z)).
Proof.
  split.
  - apply (C9_degree_one 2 3); intros H; vm_compute in H; discriminate.
  - apply (C9_degree_one 2 (-3)); intros H; vm_compute in H; discriminate.
Defined.

(** *** The stored pivot *)



(** *** Where the count departs from the number of unstable roots *)

(** C1 at the input [-s³ + 3s − 2 = −(s − 1)²(s + 2)]: the leading
    coefficient is non-zero, no row of zeros occurs and no root lies on the
    imaginary axis; the polynomial has the double root 1 in the right
    half-plane, and the builder returns the count 0. *)
Theorem C1_unstable_roots_missed :
  (forall s : Q,
     poly_at [-1; 0; 3; -2]%Q s == - ((s - 1) * (s - 1) * (s + 2)))%Q /\
  (poly_at [-1; 0; 3; -2]%Q 1 == 0)%Q /\
  exists A,
    routh_hurwitz_symbolic [-1; 0; 3; -2]%Q = Ok (A, 0%Z) /\
    map sign_at (first_col A) = [-1; 0; -1; -1]%Z.
Proof.
  split; [intros s; unfold poly_at; cbn [foldl]; ring|].
  split; [reflexivity|].
  eexists. split; vm_compute; reflexivity.
Qed.

(** C3 at the input [s³ + 10⁷·s + 1]: the first-column entry of row 2 is
    [(10⁷·ε − 1)/ε], negative for every [0 < ε < 10⁻⁷] and so in the limit
    ε → 0+, which gives two sign changes; the builder takes its sign at the
    fixed value ε = 10⁻⁶, where it is positive, and returns 0. *)
Theorem C3_sign_at_fixed_eps (x : Q) :
  (0 < x)%Q -> (x < 1 # 10000000)%Q ->
  exists A,
    routh_hurwitz_symbolic [1; 0; 10000000; 1]%Q = Ok (A, 0%Z) /\
    cell A 2 0 = RF [-1; 10000000]%Z [0; 1]%Z /\
    (reval (cell A 2 0) x < 0)%Q /\
    sign_at (cell A 2 0) = 1%Z /\
    limit_sign (cell A 2 0) = (-1)%Z /\
    limit_count A = 2%Z.
Proof.
  intros Hx0 Hx1. eexists. split; [vm_compute; reflexivity|].
  split; [vm_compute; reflexivity|]. split.
  - change (cell _ 2 0) with (RF [-1; 10000000]%Z [0; 1]%Z).
    unfold reval. cbn [num den peval].
    apply Qlt_shift_div_r.
    + change (inject_Z 0) with 0%Q. change (inject_Z 1) with 1%Q. lra.
    + change (inject_Z 0) with 0%Q. change (inject_Z 1) with 1%Q.
      change (inject_Z (-1)) with (-1 # 1)%Q.
      change (inject_Z 10000000) with (10000000 # 1)%Q. lra.
  - split; [vm_compute; reflexivity|].
    split; vm_compute; reflexivity.
Qed.

Lemma C3_sign_at_fixed_eps_witness :
  exists A,
    routh_hurwitz_symbolic [1; 0; 10000000; 1]%Q = Ok (A, 0%Z) /\
    cell A 2 0 = RF [-1; 10000000]%Z [0; 1]%Z /\
    (reval (cell A 2 0) (1 # 100000000) < 0)%Q /\
    sign_at (cell A 2 0) = 1%Z /\
    limit_sign (cell A 2 0) = (-1)%Z /\
    limit_count A = 2%Z.
Proof.
  apply (C3_sign_at_fixed_eps (1 # 100000000)); reflexivity.
Defined.

(** *** The runs recorded in the notebook *)

(** The first recorded run: [Matrix([[1, 2], [-3, 0], [2, 0]])], 2 poles. *)
Example notebook_run_1 :
  routh_hurwitz_symbolic [1; -3; 2]%Q =
  Ok ([map sympify [1; 2]; map sympify [-3; 0]; map sympify [2; 0]]%Q, 2%Z).
Proof. vm_compute. reflexivity. Qed.

(** The second recorded run:
    [Matrix([[1, 3, 5], [2, 4, 0], [1, 5, 0], [-6, 0, 0], [5, 0, 0]])], 2 poles. *)
Example notebook_run_2 :
  routh_hurwitz_symbolic [1; 2; 3; 4; 5]%Q =
  Ok ([map sympify [1; 3; 5]; map sympify [2; 4; 0]; map sympify [1; 5; 0];
       map sympify [-6; 0; 0]; map sympify [5; 0; 0]]%Q, 2%Z).
Proof. vm_compute. reflexivity. Qed.

(** The third recorded run, [(s + 1)⁶]: rows with first entries
    1, 6, 35/3, 64/5, 9, 256/63, 1 and no pole in the right half-plane. *)
Example notebook_run_3 :
  routh_hurwitz_symbolic [1; 6; 15; 20; 15; 6; 1]%Q =
  Ok ([map sympify [1; 15; 15; 1]; map sympify [6; 20; 6; 0];
       map sympify [35 # 3; 14; 1; 0]; map sympify [64 # 5; 192 # 35; 0; 0];
       map sympify [9; 1; 0; 0]; map sympify [256 # 63; 0; 0; 0];
       map sympify [1; 0; 0; 0]]%Q, 0%Z).
Proof. vm_compute. reflexivity. Qed.

(** The worked example of the notebook's text, [s³ + 3s² + 3s + 1]: the
    first column is positive throughout and the count is 0. *)
Example notebook_cubic :
  exists A,
    routh_hurwitz_symbolic [1; 3; 3; 1]%Q = Ok (A, 0%Z) /\
    first_col A = map sympify [1; 3; 8 # 3; 1]%Q /\
    map sign_at (first_col A) = [1; 1; 1; 1]%Z.
Proof.
  eexists. split; [vm_compute; reflexivity|].
  split; vm_compute; reflexivity.
Qed.

End Claims.

(** ** Further properties of the builder *)

Module Shape.
Import Poly Expr Py Routh RowForms PolyFacts ExprFacts LoopFacts Defined Claims.
Local Open Scope nat_scope.

(** *** Rows stay as computed *)

(** A row, once the outer loop has passed it, is never written again: the
    array after [k'] passes agrees with the array after [k <= k'] passes on
    the first two rows and on every row the first [k] passes computed. *)
Theorem rows_fixed_once_computed
    (coeffs : list Q) (k k' : nat) (st st' : matrix) (m : nat) :
  k <= k' -> 2 + k' <= length coeffs ->
  fill_rows (map sympify coeffs) k = Ok st ->
  fill_rows (map sympify coeffs) k' = Ok st' ->
  m < 2 + k ->
  st' !! m = st !! m /\ length st' = length st.
Proof.
  intros Hk Hk' Hst Hst' Hm. split.
  - apply (fill_rows_frame (map sympify coeffs) k k' st st');
      rewrite ?length_map; assumption.
  - destruct (fill_rows_ok (map sympify coeffs) k) as (s1 & E1 & B1);
      [rewrite length_map; lia|].
    destruct (fill_rows_ok (map sympify coeffs) k') as (s2 & E2 & B2);
      [rewrite length_map; lia|].
    assert (s1 = st) as -> by congruence. assert (s2 = st') as -> by congruence.
    now rewrite (built_length _ _ _ _ _ B1), (built_length _ _ _ _ _ B2).
Qed.

Lemma rows_fixed_once_computed_witness :
  exists st st',
    fill_rows (map sympify [1; 2; 3; 4; 5]%Q) 1 = Ok st /\
    fill_rows (map sympify [1; 2; 3; 4; 5]%Q) 3 = Ok st' /\
    st' !! 2 = st !! 2 /\ length st' = length st.
Proof.
  eexists _, _. split; [vm_compute; reflexivity|].
  split; [vm_compute; reflexivity|].
  apply (rows_fixed_once_computed [1; 2; 3; 4; 5]%Q 1 3).
  - lia.
  - simpl; lia.
  - vm_compute; reflexivity.
  - vm_compute; reflexivity.
  - lia.
Defined.

(** *** The count *)

Lemma sign_changes_le (l : list Z) :
  (sign_changes l <= Z.of_nat (length l - 1))%Z.
Proof.
  induction l as [|s [|t l] IH]; cbn [sign_changes length Nat.sub]; try lia.
  cbn [sign_changes length Nat.sub] in IH. destruct (s =? t)%Z; lia.
Qed.

Lemma length_signs_of (col : list rfun) : length (signs_of col) <= length col.
Proof.
  unfold signs_of. etransitivity; [apply length_filter|]. now rewrite length_map.
Qed.

(** The count never exceeds the degree [n - 1] of the polynomial. *)
Theorem count_at_most_degree (coeffs : list Q) (A : matrix) (cnt : Z) :
  routh_hurwitz_symbolic coeffs = Ok (A, cnt) ->
  (0 <= cnt <= Z.of_nat (length coeffs) - 1)%Z.
Proof.
  intros Hrun. destruct (run_inv coeffs A cnt Hrun) as (Hn & _ & Hb & ->).
  split; [apply sign_changes_nonneg|].
  pose proof (sign_changes_le (signs_of (first_col A))) as H1.
  pose proof (length_signs_of (first_col A)) as H2.
  unfold first_col in H2 at 2. rewrite length_map, (built_length _ _ _ _ _ Hb) in H2.
  lia.
Qed.

Lemma count_at_most_degree_witness :
  exists A cnt, routh_hurwitz_symbolic [1; -3; 2]%Q = Ok (A, cnt) /\
                (0 <= cnt <= Z.of_nat 3 - 1)%Z.
Proof.
  eexists _, _. split; [vm_compute; reflexivity|].
  eapply (count_at_most_degree [1; -3; 2]%Q). vm_compute; reflexivity.
Defined.

Lemma sign_changes_zero_iff (l : list Z) :
  sign_changes l = 0%Z <-> forall s t, s ∈ l -> t ∈ l -> s = t.
Proof.
  induction l as [|s l IH].
  - split; [intros _ s t Hs; now apply elem_of_nil in Hs | reflexivity].
  - destruct l as [|t l].
    + split; [|reflexivity]. intros _ a b Ha Hb.
      apply list_elem_of_singleton in Ha, Hb. congruence.
    + change (sign_changes (s :: t :: l))
        with ((if (s =? t)%Z then 0 else 1) + sign_changes (t :: l))%Z.
      pose proof (sign_changes_nonneg (t :: l)) as Hnn. split.
      * intros H. destruct (Z.eqb_spec s t) as [->|Hne]; [|lia].
        assert (Hall : forall a b, a ∈ t :: l -> b ∈ t :: l -> a = b) by (apply IH; lia).
        intros a b Ha Hb.
        apply elem_of_cons in Ha as [->|Ha]; apply elem_of_cons in Hb as [->|Hb];
          try reflexivity; apply Hall; try assumption; apply elem_of_cons; now left.
      * intros H. rewrite (H s t) by (repeat constructor). rewrite Z.eqb_refl.
        rewrite Z.add_0_l. apply IH. intros a b Ha Hb. apply H; now apply elem_of_cons; right.
Qed.

Lemma first_col_lookup (A : matrix) i :
  i < length A -> first_col A !! i = Some (cell A i 0).
Proof.
  intros Hi. unfold first_col, cell. rewrite list_lookup_fmap.
  now destruct (lookup_lt_is_Some_2 A i Hi) as [r ->].
Qed.

(** *** The triangular shape of the array *)

Lemma pzero_b_padd_zero p q :
  pzero_b p = true -> pzero_b q = true -> pzero_b (padd p q) = true.
Proof. intros Hp Hq. now rewrite pzero_b_padd_l. Qed.

Lemma is_zero_entry_tail (r2 r1 : row) j :
  is_zero (at_col r2 (j + 1)) = true -> is_zero (at_col r1 (j + 1)) = true ->
  is_zero (entry r2 r1 j) = true.
Proof.
  intros Hb Hd. unfold entry. rewrite is_zero_simplify.
  unfold is_zero in *. cbn [rdiv_raw rsub rmul num den].
  apply pmul_zero_l. unfold psub. apply pzero_b_padd_zero.
  - apply pmul_zero_l. now apply pmul_zero_r.
  - rewrite pzero_b_pscale. cbn [Z.eqb orb].
    apply pmul_zero_l. now apply pmul_zero_r.
Qed.

Lemma is_zero_rscale k x : is_zero (rscale k x) = (k =? 0)%Z || is_zero x.
Proof. unfold is_zero. cbn [rscale num]. apply pzero_b_pscale. Qed.

Lemma at_col_outside (r : row) j : length r <= j -> at_col r j = rzero.
Proof. intros H. unfold at_col. now rewrite (proj2 (lookup_ge_None r j) H). Qed.

Lemma cell_row (A : matrix) i j r : A !! i = Some r -> cell A i j = at_col r j.
Proof. unfold cell. now intros ->. Qed.

(** The array is triangular: row [i] holds zeros from column
    [ceil((n - i) / 2)] on.  The inner loop leaves the last column alone and
    each computed entry only reads the columns to its right in the two rows
    above; the replacement row of the row-of-zeros case keeps the shape
    because its factor [order - 2k] vanishes where it would not. *)
Theorem triangular_shape (coeffs : list Q) (A : matrix) (cnt : Z) (i j : nat) :
  routh_hurwitz_symbolic coeffs = Ok (A, cnt) ->
  i < length coeffs ->
  (length coeffs - i + 1) / 2 <= j ->
  is_zero (cell A i j) = true.
Proof.
  intros Hrun. destruct (run_inv coeffs A cnt Hrun) as (Hn & _ & Hb & _).
  set (n := length coeffs) in *.
  pose proof (ncols_bounds n) as Hc.
  revert j. induction i as [i IH] using lt_wf_ind. intros j Hi Hj.
  destruct (decide (i = 0)) as [->|Hi0].
  { rewrite (cell_row A 0 j _ (built_first _ _ _ _ _ Hb)).
    rewrite at_col_outside; [reflexivity|].
    rewrite length_first_row, length_map. fold n. unfold ncols.
    now rewrite Nat.sub_0_r in Hj. }
  destruct (decide (i = 1)) as [->|Hi1].
  { rewrite (cell_row A 1 j _ (built_second _ _ _ _ _ Hb)).
    destruct (decide (j < ncols n)) as [Hlt|Hge].
    - unfold at_col. rewrite lookup_second_row by (rewrite length_map; exact Hlt).
      cbn [default]. rewrite (proj2 (lookup_ge_None _ (2 * j + 1))); [reflexivity|].
      rewrite length_map. fold n.
      pose proof (Nat.div_mod_eq (n - 1 + 1) 2).
      pose proof (Nat.mod_upper_bound (n - 1 + 1) 2). lia.
    - rewrite at_col_outside; [reflexivity|].
      rewrite length_second_row, length_map. fold n. lia. }
  destruct (built_row _ _ _ _ i Hb ltac:(lia)) as (r2 & r1 & H2 & H1 & Hrow & L2 & L1).
  rewrite (cell_row A i j _ Hrow).
  destruct (decide (j < ncols n)) as [Hlt|Hge];
    [|rewrite at_col_outside; [reflexivity | rewrite length_next_row by exact L1; lia]].
  pose proof (Nat.div_mod_eq (n - i + 1) 2) as Hd.
  pose proof (Nat.mod_upper_bound (n - i + 1) 2 ltac:(lia)) as Hm.
  unfold next_row. destruct (forallb _ _).
  - unfold at_col, aux_row. rewrite lookup_app_l by (rewrite length_imap; lia).
    rewrite list_lookup_imap.
    destruct (lookup_lt_is_Some_2 r1 j ltac:(lia)) as [x Hx]. rewrite Hx.
    cbn [fmap option_fmap option_map default]. unfold id. rewrite is_zero_rscale.
    destruct (decide ((n - (i - 1) + 1) / 2 <= j)) as [Hw|Hw].
    + specialize (IH (i - 1) ltac:(lia) j ltac:(lia) Hw).
      rewrite (cell_row A (i - 1) j _ H1), (at_col_Some _ _ _ Hx) in IH.
      rewrite IH. apply orb_true_r.
    + pose proof (Nat.div_mod_eq (n - (i - 1) + 1) 2).
      pose proof (Nat.mod_upper_bound (n - (i - 1) + 1) 2 ltac:(lia)).
      replace (Z.of_nat n - Z.of_nat i - 2 * Z.of_nat j)%Z with 0%Z by lia.
      reflexivity.
  - destruct (decide (j + 1 < ncols n)) as [Hin|Hlast].
    + unfold at_col. rewrite lookup_filled_row by exact Hin. cbn [default].
      apply is_zero_entry_tail.
      * rewrite <- (cell_row A (i - 2) (j + 1) _ H2). apply IH; try lia.
        pose proof (Nat.div_mod_eq (n - (i - 2) + 1) 2).
        pose proof (Nat.mod_upper_bound (n - (i - 2) + 1) 2 ltac:(lia)). lia.
      * rewrite <- (cell_row A (i - 1) (j + 1) _ H1). apply IH; try lia.
        pose proof (Nat.div_mod_eq (n - (i - 1) + 1) 2).
        pose proof (Nat.mod_upper_bound (n - (i - 1) + 1) 2 ltac:(lia)). lia.
    + replace j with (ncols n - 1) by lia. unfold at_col.
      rewrite lookup_filled_row_last by lia. reflexivity.
Qed.

Lemma triangular_shape_witness :
  exists A cnt, routh_hurwitz_symbolic [1; 2; 3; 4; 5]%Q = Ok (A, cnt) /\
                is_zero (cell A 3 1) = true.
Proof.
  eexists _, _. split; [vm_compute; reflexivity|].
  apply (triangular_shape [1; 2; 3; 4; 5]%Q _ 2%Z 3 1).
  - vm_compute; reflexivity.
  - simpl; lia.
  - simpl. apply Nat.le_refl.
Defined.

End Shape.

(** ** Values of expressions at a point *)

Module ValueFacts.
Import Poly Expr Py Routh RowForms PolyFacts ExprFacts LimitFacts.

Lemma peval_const c x : (peval [c] x == inject_Z c)%Q.
Proof. cbn. ring. Qed.

Lemma reval_rmul a b x : (reval (rmul a b) x == reval a x * reval b x)%Q.
Proof.
  unfold reval. cbn [rmul num den]. rewrite !peval_pmul.
  unfold Qdiv. rewrite Qinv_mult_distr. ring.
Qed.

Lemma defined_rmul a b x : defined_at a x -> defined_at b x -> defined_at (rmul a b) x.
Proof.
  unfold defined_at. cbn [rmul den]. rewrite peval_pmul. intros Ha Hb H.
  apply Qmult_integral in H. tauto.
Qed.

Lemma reval_rsub a b x :
  defined_at a x -> defined_at b x ->
  (reval (rsub a b) x == reval a x - reval b x)%Q.
Proof.
  unfold defined_at, reval. intros Ha Hb. cbn [rsub num den].
  rewrite peval_psub, !peval_pmul. field. split; assumption.
Qed.

Lemma defined_rsub a b x : defined_at a x -> defined_at b x -> defined_at (rsub a b) x.
Proof.
  unfold defined_at. cbn [rsub den]. rewrite peval_pmul. intros Ha Hb H.
  apply Qmult_integral in H. tauto.
Qed.

Lemma reval_rdiv_raw a b x : (reval (rdiv_raw a b) x == reval a x / reval b x)%Q.
Proof.
  unfold reval. cbn [rdiv_raw num den]. rewrite !peval_pmul.
  unfold Qdiv. rewrite !Qinv_mult_distr, Qinv_involutive. ring.
Qed.

Lemma defined_rdiv_raw a b x :
  defined_at a x -> ~ (peval (num b) x == 0)%Q -> defined_at (rdiv_raw a b) x.
Proof.
  unfold defined_at. cbn [rdiv_raw den]. rewrite peval_pmul. intros Ha Hb H.
  apply Qmult_integral in H. tauto.
Qed.

Lemma reval_rscale k a x : (reval (rscale k a) x == inject_Z k * reval a x)%Q.
Proof.
  unfold reval. cbn [rscale num den]. rewrite peval_pscale.
  unfold Qdiv. ring.
Qed.

Lemma defined_rscale k a x : defined_at a x -> defined_at (rscale k a) x.
Proof. exact id. Qed.

Lemma reval_rzero x : (reval rzero x == 0)%Q.
Proof. unfold reval. cbn. unfold Qdiv. ring. Qed.

Lemma defined_rzero x : defined_at rzero x.
Proof.
  unfold defined_at. cbn [rzero den]. rewrite peval_const. discriminate.
Qed.

Lemma reval_eps x : (reval eps x == x)%Q.
Proof.
  unfold reval. cbn. change (inject_Z 0) with 0%Q. change (inject_Z 1) with 1%Q.
  field.
Qed.

Lemma defined_eps x : defined_at eps x.
Proof.
  unfold defined_at. cbn [eps den]. rewrite peval_const. discriminate.
Qed.

Lemma defined_sympify c x : defined_at (sympify c) x.
Proof.
  unfold defined_at, sympify. cbn [den]. rewrite peval_const.
  intros H. unfold Qeq in H. cbn in H. lia.
Qed.

Lemma num_sympify_nonzero c x :
  ~ (c == 0)%Q -> ~ (peval (num (sympify c)) x == 0)%Q.
Proof.
  intros Hc H. apply Hc. rewrite <- (reval_sympify c x). unfold reval.
  rewrite H. unfold Qdiv. ring.
Qed.

(** Reduction keeps the value wherever the expression has one. *)
Lemma reval_canon r x :
  defined_at r x -> defined_at (canon r) x /\ (reval (canon r) x == reval r x)%Q.
Proof.
  unfold defined_at. intros Hd.
  destruct (canon_cases r) as [[Hn ->] | [[Hn ->] | [Hn [g [H1 H2]]]]].
  - split; [apply defined_rzero|]. rewrite reval_rzero. unfold reval.
    rewrite (pzero_b_peval (num r) x Hn). unfold Qdiv. ring.
  - split; [exact Hd | reflexivity].
  - pose proof (peqb_peval _ _ x H1) as E1. pose proof (peqb_peval _ _ x H2) as E2.
    rewrite peval_pmul in E1, E2. rewrite <- E2 in Hd.
    assert (Hg : ~ (peval g x == 0)%Q) by (intros E; apply Hd; rewrite E; ring).
    assert (Hd' : ~ (peval (den (canon r)) x == 0)%Q)
      by (intros E; apply Hd; rewrite E; ring).
    split; [exact Hd'|]. unfold reval. rewrite <- E1, <- E2. field. split; assumption.
Qed.

Lemma reval_simplify r x :
  defined_at r x -> defined_at (simplify r) x /\ (reval (simplify r) x == reval r x)%Q.
Proof. apply reval_canon. Qed.

(** *** Non-zero polynomials have non-zero values *)

Lemma low_term_nonzero p : pzero_b p = false -> snd (low_term p) <> 0.
Proof.
  induction p as [|c p IH]; [discriminate|].
  rewrite pzero_b_cons. cbn [low_term].
  destruct (Z.eqb_spec c 0) as [->|Hc].
  - cbn [Z.eqb andb]. intros Hp. specialize (IH Hp).
    destruct (low_term p). exact IH.
  - intros _. exact Hc.
Qed.

Lemma nonzero_poly_value p :
  pzero_b p = false -> exists x, ~ (peval p x == 0)%Q.
Proof.
  intros Hp. destruct (peval_low_sign p Hp) as (d & Hd & Hs).
  exists (d / 2)%Q. intros E.
  assert (Hlt : (0 < d / 2)%Q) by (apply Qlt_shift_div_l; lra).
  assert (Hlt' : (d / 2 < d)%Q) by (apply Qlt_shift_div_r; lra).
  specialize (Hs _ Hlt Hlt'). rewrite (Qsign_Qeq _ _ E) in Hs.
  pose proof (low_term_nonzero p Hp) as Ha.
  change (Qsign 0) with 0 in Hs. symmetry in Hs.
  exact (Ha (proj1 (Z.sgn_null_iff _) Hs)).
Qed.

(** *** Expressions without ε *)

Lemma eps_free_rzero : eps_free rzero 0.
Proof. intros x. split; [apply defined_rzero | apply reval_rzero]. Qed.

Lemma eps_free_sympify c : eps_free (sympify c) c.
Proof. intros x. split; [apply defined_sympify | apply reval_sympify]. Qed.

Lemma eps_free_is_zero r q : eps_free r q -> is_zero r = true -> (q == 0)%Q.
Proof.
  intros H Hz. destruct (H 0%Q) as [_ <-]. unfold reval.
  rewrite (pzero_b_peval _ _ Hz). unfold Qdiv. ring.
Qed.

Lemma eps_free_nonzero r q :
  eps_free r q -> is_zero r = false ->
  ~ (q == 0)%Q /\ forall x, ~ (peval (num r) x == 0)%Q.
Proof.
  intros H Hz. destruct (nonzero_poly_value _ Hz) as [x0 Hx0].
  assert (Hq : ~ (q == 0)%Q).
  { intros E. destruct (H x0) as [Hd Hv]. unfold defined_at in Hd.
    rewrite E in Hv. unfold reval in Hv. apply Hx0.
    rewrite <- (Qmult_div_r (peval (num r) x0) (peval (den r) x0)) by exact Hd.
    rewrite Hv. ring. }
  split; [exact Hq|]. intros x E. apply Hq. destruct (H x) as [_ <-].
  unfold reval. rewrite E. unfold Qdiv. ring.
Qed.

End ValueFacts.

(** ** The regular case: no zero pivot *)

Module Regular.
Import Poly Expr Py Routh RowForms PolyFacts ExprFacts LoopFacts Defined LimitFacts.
Import Claims Shape ValueFacts.
Local Open Scope nat_scope.

Lemma Forall_stride2 {X} (P : X -> Prop) (l : list X) : Forall P l -> Forall P (stride2 l).
Proof.
  intros H. apply Forall_lookup. intros k x. rewrite lookup_stride2.
  apply (proj1 (Forall_lookup _ _) H).
Qed.

Lemma Forall_fill (P : rfun -> Prop) (f : nat -> rfun) (js : list nat) (ri : row) :
  (forall j, P (f j)) -> Forall P ri ->
  Forall P (foldl (fun r j => <[j := f j]> r) ri js).
Proof.
  intros Hf. revert ri; induction js as [|j js IH]; intros ri Hri; cbn [foldl]; [exact Hri|].
  apply IH. now apply Forall_insert.
Qed.

Lemma eps_free_at_col (r : row) j :
  Forall (fun v => exists q, eps_free v q) r -> exists q, eps_free (at_col r j) q.
Proof.
  intros H. unfold at_col. destruct (r !! j) as [v|] eqn:Hv.
  - exact (proj1 (Forall_lookup _ _) H j v Hv).
  - exists 0%Q. apply eps_free_rzero.
Qed.

Lemma eps_free_rscale k v q : eps_free v q -> eps_free (rscale k v) (inject_Z k * q).
Proof.
  intros H x. destruct (H x) as [Hd Hv]. split; [now apply defined_rscale|].
  now rewrite reval_rscale, Hv.
Qed.

(** With a non-zero pivot, an entry computed from ε-free rows is ε-free, and
    its value is given by the recurrence on the values. *)
Lemma eps_free_entry (r2 r1 : row) j qa qb qc qd :
  eps_free (at_col r2 0) qa -> eps_free (at_col r2 (j + 1)) qb ->
  eps_free (at_col r1 0) qc -> eps_free (at_col r1 (j + 1)) qd ->
  is_zero (at_col r1 0) = false ->
  eps_free (entry r2 r1 j) ((qc * qb - qa * qd) / qc).
Proof.
  intros Ha Hb Hc Hd Hz x. unfold entry, pivot_or_eps. rewrite Hz.
  destruct (eps_free_nonzero _ _ Hc Hz) as [Hqc Hnum].
  destruct (Ha x) as [Da Va], (Hb x) as [Db Vb], (Hc x) as [Dc Vc], (Hd x) as [Dd Vd].
  set (e := rdiv_raw _ _).
  assert (De : defined_at e x).
  { apply defined_rdiv_raw; [|apply Hnum].
    apply defined_rsub; now apply defined_rmul. }
  destruct (reval_simplify e x De) as [Ds Vs]. split; [exact Ds|].
  rewrite Vs. unfold e. rewrite reval_rdiv_raw, reval_rsub, !reval_rmul
    by now apply defined_rmul.
  now rewrite Va, Vb, Vc, Vd.
Qed.

Lemma regular_run (coeffs : list Q) (A : matrix) (cnt : Z) :
  routh_hurwitz_symbolic coeffs = Ok (A, cnt) ->
  (forall m, 1 <= m -> m + 2 <= length coeffs -> is_zero (cell A m 0) = false) ->
  (forall i j, exists q, eps_free (cell A i j) q) /\
  forall e : Q,
    cnt = sign_changes (filter (fun s => s <> 0%Z)
                          (map (fun v => Qsign (reval v e)) (first_col A))).
Proof.
  intros Hrun Hpiv. destruct (run_inv coeffs A cnt Hrun) as (Hn & _ & Hb & Hcnt).
  set (n := length coeffs) in *.
  set (P := fun v : rfun => exists q, eps_free v q).
  assert (Hz : P rzero) by (exists 0%Q; apply eps_free_rzero).
  assert (Hsym : Forall P (map sympify coeffs)).
  { apply Forall_map, Forall_forall. intros c _. exists c. apply eps_free_sympify. }
  assert (Hrows : forall i r, A !! i = Some r -> Forall P r).
  { intros i. induction i as [i IH] using lt_wf_ind. intros r Hr.
    pose proof (lookup_lt_Some _ _ _ Hr) as Hi.
    rewrite (built_length _ _ _ _ _ Hb) in Hi.
    destruct (decide (i = 0)) as [->|Hi0].
    { rewrite (built_first _ _ _ _ _ Hb) in Hr. injection Hr as <-.
      unfold first_row. apply Forall_app. split.
      - now apply Forall_stride2.
      - now apply Forall_replicate. }
    destruct (decide (i = 1)) as [->|Hi1].
    { rewrite (built_second _ _ _ _ _ Hb) in Hr. injection Hr as <-.
      unfold second_row. apply Forall_app. split.
      - now apply Forall_stride2, Forall_drop.
      - now apply Forall_replicate. }
    destruct (built_row _ _ _ _ i Hb ltac:(lia)) as (r2 & r1 & H2 & H1 & Hrow & _ & _).
    rewrite Hrow in Hr. injection Hr as <-.
    pose proof (IH (i - 2) ltac:(lia) r2 H2) as P2.
    pose proof (IH (i - 1) ltac:(lia) r1 H1) as P1.
    unfold next_row. destruct (forallb _ _).
    - unfold aux_row. apply Forall_app. split; [|now apply Forall_replicate].
      apply Forall_lookup. intros k x. rewrite list_lookup_imap.
      destruct (r1 !! k) as [y|] eqn:Hy; [|discriminate]. intros [= <-].
      destruct (proj1 (Forall_lookup _ _) P1 k y Hy) as [q Hq].
      eexists. apply eps_free_rscale, Hq.
    - apply Forall_fill; [|now apply Forall_replicate].
      intros j.
      destruct (eps_free_at_col r2 0 P2) as [qa Ha].
      destruct (eps_free_at_col r2 (j + 1) P2) as [qb Hqb].
      destruct (eps_free_at_col r1 0 P1) as [qc Hc].
      destruct (eps_free_at_col r1 (j + 1) P1) as [qd Hd].
      eexists. apply (eps_free_entry r2 r1 j qa qb qc qd); try assumption.
      rewrite <- (cell_row A (i - 1) 0 r1 H1). apply Hpiv; lia. }
  assert (Hcells : forall i j, P (cell A i j)).
  { intros i j. unfold cell. destruct (A !! i) as [r|] eqn:Hr.
    - apply eps_free_at_col. exact (Hrows i r Hr).
    - exact Hz. }
  split; [exact Hcells|]. intros e. rewrite Hcnt. unfold signs_of.
  do 2 f_equal. unfold first_col. rewrite <- !list_fmap_compose.
  apply list_fmap_ext. intros k r Hr. cbn.
  destruct (Hcells k 0) as [q Hq]. rewrite (cell_row A k 0 r Hr) in Hq.
  unfold sign_at. apply Qsign_Qeq.
  destruct (Hq e) as [_ ->]. destruct (Hq eps_val) as [_ ->]. reflexivity.
Qed.

(** If no pivot is zero, ε never enters the array: every entry is a rational
    constant, and the count is the same whatever value is substituted for ε
    before the signs are taken. *)
Theorem regular_case_eps_free (coeffs : list Q) (A : matrix) (cnt : Z) :
  routh_hurwitz_symbolic coeffs = Ok (A, cnt) ->
  (forall m, 1 <= m -> m + 2 <= length coeffs -> is_zero (cell A m 0) = false) ->
  (forall i j, exists q, eps_free (cell A i j) q) /\
  forall e : Q,
    cnt = sign_changes (filter (fun s => s <> 0%Z)
                          (map (fun v => Qsign (reval v e)) (first_col A))).
Proof. apply regular_run. Qed.

Lemma regular_case_eps_free_witness :
  exists A cnt,
    routh_hurwitz_symbolic [1; 2; 3; 4; 5]%Q = Ok (A, cnt) /\
    (forall i j, exists q, eps_free (cell A i j) q) /\
    forall e : Q,
      cnt = sign_changes (filter (fun s => s <> 0%Z)
                            (map (fun v => Qsign (reval v e)) (first_col A))).
Proof.
  eexists _, _. split; [vm_compute; reflexivity|].
  apply (regular_case_eps_free [1; 2; 3; 4; 5]%Q _ 2%Z).
  - vm_compute; reflexivity.
  - intros m H1 H2. cbn [length] in H2.
    destruct m as [|[|[|[|m]]]]; try lia; vm_compute; reflexivity.
Defined.

Lemma elem_of_nonzero_signs (sg : rfun -> Z) (col : list rfun) s :
  s ∈ filter (fun s => s <> 0%Z) (map sg col) <->
  s <> 0%Z /\ exists i v, col !! i = Some v /\ s = sg v.
Proof.
  rewrite list_elem_of_filter, list_elem_of_fmap. split.
  - intros [Hs (v & -> & [i Hi]%list_elem_of_lookup)]. eauto.
  - intros [Hs (i & v & Hi & ->)]. split; [exact Hs|].
    exists v. split; [reflexivity|]. apply list_elem_of_lookup. eauto.
Qed.

(** If no pivot is zero, the first column consists of rational constants,
    whose signs the code takes exactly, and the count is 0 exactly when all
    the non-zero ones have the same sign (the "no sign change" test of the
    stability condition); the value [e] substituted for ε plays no role. *)
Theorem regular_count_zero_iff_signs_agree
    (coeffs : list Q) (A : matrix) (cnt : Z) (e : Q) :
  routh_hurwitz_symbolic coeffs = Ok (A, cnt) ->
  (forall m, 1 <= m -> m + 2 <= length coeffs -> is_zero (cell A m 0) = false) ->
  cnt = 0%Z <->
  forall i k, i < length coeffs -> k < length coeffs ->
    Qsign (reval (cell A i 0) e) <> 0%Z -> Qsign (reval (cell A k 0) e) <> 0%Z ->
    Qsign (reval (cell A i 0) e) = Qsign (reval (cell A k 0) e).
Proof.
  intros Hrun Hpiv.
  destruct (regular_run coeffs A cnt Hrun Hpiv) as [_ Hcnt].
  destruct (run_inv coeffs A cnt Hrun) as (_ & _ & Hb & _).
  pose proof (built_length _ _ _ _ _ Hb) as Hlen.
  rewrite (Hcnt e), sign_changes_zero_iff. split.
  - intros H i k Hi Hk Hsi Hsk.
    apply H; apply elem_of_nonzero_signs; (split; [assumption|]).
    + exists i, (cell A i 0). split; [apply first_col_lookup; lia | reflexivity].
    + exists k, (cell A k 0). split; [apply first_col_lookup; lia | reflexivity].
  - intros H s t [Hs (i & v & Hi & ->)]%elem_of_nonzero_signs
                 [Ht (k & w & Hk & ->)]%elem_of_nonzero_signs.
    pose proof (lookup_lt_Some _ _ _ Hi) as Li.
    pose proof (lookup_lt_Some _ _ _ Hk) as Lk.
    unfold first_col in Li, Lk. rewrite length_map in Li, Lk.
    rewrite first_col_lookup in Hi, Hk by assumption.
    injection Hi as <-. injection Hk as <-. apply H; (assumption || lia).
Qed.

Lemma regular_count_zero_iff_signs_agree_witness :
  exists A,
    routh_hurwitz_symbolic [1; 3; 3; 1]%Q = Ok (A, 0%Z) /\
    forall i k, i < 4 -> k < 4 ->
      Qsign (reval (cell A i 0) 0) <> 0%Z -> Qsign (reval (cell A k 0) 0) <> 0%Z ->
      Qsign (reval (cell A i 0) 0) = Qsign (reval (cell A k 0) 0).
Proof.
  eexists. split; [vm_compute; reflexivity|].
  refine (proj1 (regular_count_zero_iff_signs_agree [1; 3; 3; 1]%Q _ 0%Z 0%Q _ _) _).
  - vm_compute; reflexivity.
  - intros m H1 H2. cbn [length] in H2.
    destruct m as [|[|[|m]]]; try lia; vm_compute; reflexivity.
  - reflexivity.
Defined.

End Regular.

(** ** Degree two *)

Module Quadratic.
Import Poly Expr Py Routh RowForms PolyFacts ExprFacts LoopFacts Defined LimitFacts.
Import Claims Shape ValueFacts.
Local Open Scope nat_scope.

Lemma pzero_b_padd_r p q : pzero_b q = true -> pzero_b (padd p q) = pzero_b p.
Proof.
  revert q; induction p as [|a p IH]; intros [|b q] H; try easy.
  apply pzero_b_cons_true in H as [-> H].
  cbn [padd]. rewrite !pzero_b_cons, IH by exact H.
  now rewrite Z.add_0_r.
Qed.

(** With nothing to subtract, a computed entry vanishes exactly when the
    entry above and to the right does. *)
Lemma is_zero_entry_last_col a b c d :
  wf a -> wf d -> wf c -> is_zero c = false -> is_zero d = true ->
  is_zero (simplify (rdiv_raw (rsub (rmul c b) (rmul a d)) c)) = is_zero b.
Proof.
  intros Wa Wd Wc Zc Zd. rewrite is_zero_simplify.
  unfold wf, is_zero in *. cbn [rdiv_raw rsub rmul num den].
  rewrite pmul_zero_iff, Wc, orb_false_r. unfold psub.
  rewrite pzero_b_padd_r.
  - rewrite !pmul_zero_iff, Zc, Wa, Wd. cbn [orb]. now rewrite orb_false_r.
  - rewrite pzero_b_pscale. cbn [Z.eqb orb].
    apply pmul_zero_l, pmul_zero_r, Zd.
Qed.

Lemma is_zero_sympify c : is_zero (sympify c) = Qeq_bool c 0.
Proof.
  unfold is_zero, sympify, Qeq_bool. cbn [num pzero_b forallb Qnum Qden].
  rewrite andb_true_r. pose proof (Qred_correct c) as E. unfold Qeq in E.
  destruct (Z.eqb_spec 0 (Qnum (Qred c))), (Z.eqb_spec (Qnum c * 1) (0 * QDen c));
    try reflexivity; nia.
Qed.

Lemma sign_at_rscale_one v : sign_at (rscale 1 v) = sign_at v.
Proof.
  unfold sign_at. apply Qsign_Qeq. rewrite reval_rscale.
  change (inject_Z 1) with 1%Q. ring.
Qed.

Lemma reval_pivot_nonzero (a1 : Q) :
  let c := pivot_or_eps (sympify a1) in
  wf c /\ is_zero c = false /\ defined_at c eps_val /\
  ~ (peval (num c) eps_val == 0)%Q /\ ~ (reval c eps_val == 0)%Q.
Proof.
  cbv zeta. unfold pivot_or_eps. destruct (is_zero (sympify a1)) eqn:Hz.
  - repeat split; try reflexivity; try apply defined_eps.
    + intros H. vm_compute in H. discriminate.
    + rewrite reval_eps. intros H. vm_compute in H. discriminate.
  - assert (Ha : ~ (a1 == 0)%Q).
    { intros E. rewrite is_zero_sympify in Hz. apply Qeq_eq_bool in E. congruence. }
    repeat split; try assumption; try apply wf_sympify; try apply defined_sympify.
    + now apply num_sympify_nonzero.
    + now rewrite reval_sympify.
Qed.

(** The first entry of row 2 of a degree-2 run has the sign of [a2]. *)
Lemma sign_at_entry_quadratic (a0 a1 a2 : Q) :
  sign_at (entry [sympify a0; sympify a2] [sympify a1; rzero] 0) = Qsign a2.
Proof.
  unfold entry, at_col. cbn [lookup list_lookup default Nat.add]. unfold id.
  destruct (reval_pivot_nonzero a1) as (Wc & Zc & Dc & Nc & Vc).
  set (c := pivot_or_eps (sympify a1)) in *.
  set (e := rdiv_raw _ _).
  assert (De : defined_at e eps_val).
  { apply defined_rdiv_raw; [|exact Nc].
    apply defined_rsub; apply defined_rmul;
      auto using defined_sympify, defined_rzero. }
  unfold sign_at. apply Qsign_Qeq.
  rewrite (proj2 (reval_simplify e eps_val De)). unfold e.
  rewrite reval_rdiv_raw, reval_rsub, !reval_rmul, reval_rzero, !reval_sympify
    by (apply defined_rmul; auto using defined_sympify, defined_rzero).
  field. exact Vc.
Qed.

Lemma quadratic_run (a0 a1 a2 : Q) :
  exists A,
    routh_hurwitz_symbolic [a0; a1; a2] =
    Ok (A, sign_changes
             (filter (fun s => s <> 0%Z)
                [Qsign a0; Qsign a1; Qsign (if Qeq_bool a2 0 then a1 else a2)])).
Proof.
  set (r2 := [sympify a0; sympify a2]). set (r1 := [sympify a1; rzero]).
  exists [r2; r1; next_row 3 2 2 r2 r1].
  unfold routh_hurwitz_symbolic. cbn [map length Nat.sub].
  assert (Hfill : fill_rows [sympify a0; sympify a1; sympify a2] 1
                  = Ok [r2; r1; next_row 3 2 2 r2 r1]).
  { change (fill_rows [sympify a0; sympify a1; sympify a2] 1)
      with (bind (row_step 3 2 2 [r2; r1; zero_row 2]) Ok).
    rewrite (row_step_ok 3 2 2 [r2; r1; zero_row 2] r2 r1) by (reflexivity || lia).
    reflexivity. }
  rewrite Hfill. cbn [bind].
  rewrite count_changes_ok.
  2:{ repeat constructor; try (cbn; lia). rewrite length_next_row by reflexivity. lia. }
  cbn [bind]. do 3 f_equal.
  change (first_col [r2; r1; next_row 3 2 2 r2 r1])
    with [sympify a0; sympify a1; at_col (next_row 3 2 2 r2 r1) 0].
  unfold signs_of. cbn [map]. rewrite !sign_at_sympify. do 3 f_equal.
  unfold next_row.
  change (filled_row 2 r2 r1 (zero_row 2)) with [entry r2 r1 0; rzero].
  cbn [forallb]. change (is_zero rzero) with true. rewrite !andb_true_r.
  assert (Hz : is_zero (entry r2 r1 0) = Qeq_bool a2 0).
  { unfold entry, r2, r1, at_col. cbn [lookup list_lookup default Nat.add].
    unfold id. destruct (reval_pivot_nonzero a1) as (Wc & Zc & _).
    rewrite is_zero_entry_last_col; auto using wf_sympify, wf_rzero.
    apply is_zero_sympify. }
  rewrite Hz. destruct (Qeq_bool a2 0).
  - change (at_col (aux_row 3 2 2 r1) 0) with (rscale 1 (sympify a1)).
    now rewrite sign_at_rscale_one, sign_at_sympify.
  - change (at_col [entry r2 r1 0; rzero] 0) with (entry r2 r1 0).
    f_equal. apply sign_at_entry_quadratic.
Qed.

(** For a degree-2 input [[a0, a1, a2]] the first column is [a0], [a1] and
    then [a2], or [a1] again when [a2 = 0] (the row-of-zeros case), and the
    count is the number of sign changes along it, zeros left out. *)
Theorem quadratic_count (a0 a1 a2 : Q) :
  exists A,
    routh_hurwitz_symbolic [a0; a1; a2] =
    Ok (A, sign_changes
             (filter (fun s => s <> 0%Z)
                [Qsign a0; Qsign a1; Qsign (if Qeq_bool a2 0 then a1 else a2)])).
Proof. apply quadratic_run. Qed.

Lemma Qsign_cases x :
  ((x < 0)%Q /\ Qsign x = (-1)%Z) \/ ((x == 0)%Q /\ Qsign x = 0%Z) \/
  ((0 < x)%Q /\ Qsign x = 1%Z).
Proof.
  destruct (Q_dec x 0) as [[H|H]|H].
  - left. split; [exact H | now apply Qsign_neg].
  - right; right. split; [exact H | now apply Qsign_pos].
  - right; left. split; [exact H | now apply Qsign_zero_iff].
Qed.

Lemma Qsign_opp x : Qsign (- x) = (- Qsign x)%Z.
Proof. unfold Qsign. cbn [Qopp Qnum]. apply Z.sgn_opp. Qed.

Lemma Qeq_bool_0_sign x : Qeq_bool x 0 = (Qsign x =? 0)%Z.
Proof.
  destruct (Qeq_bool x 0) eqn:E.
  - apply Qeq_bool_0_Qsign in E. now rewrite E.
  - symmetry. apply Z.eqb_neq. intros H. apply Qeq_bool_0_Qsign in H. congruence.
Qed.

(** For a quadratic given by its leading coefficient and two rational roots,
    [a0·(s − r1)·(s − r2)], the count is the number of positive roots. *)
Theorem quadratic_real_roots_count (a0 r1 r2 : Q) :
  ~ (a0 == 0)%Q ->
  exists A,
    routh_hurwitz_symbolic [a0; - a0 * (r1 + r2); a0 * r1 * r2]%Q =
    Ok (A, ((if Qlt_le_dec 0 r1 then 1 else 0) +
            (if Qlt_le_dec 0 r2 then 1 else 0))%Z).
Proof.
  intros Ha0.
  destruct (quadratic_run a0 (- a0 * (r1 + r2)) (a0 * r1 * r2)) as [A HA].
  exists A. rewrite HA. do 2 f_equal. clear HA.
  assert (E : forall (b : bool) (x y : Q), Qsign (if b then x else y)
                                       = if b then Qsign x else Qsign y)
    by (now intros []).
  rewrite E, Qeq_bool_0_sign, !Qsign_mult, Qsign_opp.
  destruct (Qsign_cases a0) as [[H0 ->] | [[H0 ->] | [H0 ->]]]; [|contradiction|];
  destruct (Qsign_cases r1) as [[H1 ->] | [[H1 ->] | [H1 ->]]];
  destruct (Qsign_cases r2) as [[H2 ->] | [[H2 ->] | [H2 ->]]];
  destruct (Qsign_cases (r1 + r2)) as [[H3 ->] | [[H3 ->] | [H3 ->]]];
  destruct (Qlt_le_dec 0 r1), (Qlt_le_dec 0 r2);
  try reflexivity; exfalso; lra.
Qed.

Lemma quadratic_real_roots_count_witness :
  exists A, routh_hurwitz_symbolic [1; - 1 * (2 + -3); 1 * 2 * -3]%Q
            = Ok (A, ((if Qlt_le_dec 0 2 then 1 else 0) +
                      (if Qlt_le_dec 0 (-3) then 1 else 0))%Z).
Proof.
  apply (quadratic_real_roots_count 1 2 (-3)).
  intros H; vm_compute in H; discriminate.
Defined.

End Quadratic.

(** ** Scaling the polynomial *)

Module Scaling.
Import Poly Expr Py Routh RowForms PolyFacts ExprFacts LoopFacts Defined LimitFacts.
Import Claims Shape ValueFacts Regular.
Local Open Scope nat_scope.

Section Scaled.
Variable k : Q.
Hypothesis k_nonzero : ~ (k == 0)%Q.

Lemma eps_free_proper v q q' : (q == q')%Q -> eps_free v q -> eps_free v q'.
Proof. intros E H x. destruct (H x) as [Hd Hv]. split; [exact Hd | now rewrite Hv]. Qed.

Lemma eps_free_zero_iff v q : eps_free v q -> (is_zero v = true <-> (q == 0)%Q).
Proof.
  intros H. split; [apply (eps_free_is_zero _ _ H)|].
  intros E. destruct (is_zero v) eqn:Hz; [reflexivity|].
  now destruct (eps_free_nonzero _ _ H Hz) as [Hq _].
Qed.

Lemma scaled_rzero : scaled k rzero rzero.
Proof.
  exists 0%Q. split; [apply eps_free_rzero|].
  apply (eps_free_proper _ 0%Q); [ring | apply eps_free_rzero].
Qed.

Lemma scaled_sympify c : scaled k (sympify c) (sympify (k * c)).
Proof. exists c. split; apply eps_free_sympify. Qed.

Lemma scaled_is_zero v v' : scaled k v v' -> is_zero v' = is_zero v.
Proof.
  intros (q & H & H').
  pose proof (eps_free_zero_iff _ _ H) as E. pose proof (eps_free_zero_iff _ _ H') as E'.
  destruct (is_zero v) eqn:Hz.
  - apply E'. rewrite (proj1 E eq_refl). ring.
  - destruct (is_zero v') eqn:Hz'; [|reflexivity].
    assert (Hq : (k * q == 0)%Q) by now apply E'.
    apply Qmult_integral in Hq as [Hq|Hq]; [contradiction|].
    apply E in Hq. discriminate.
Qed.

Lemma scaled_at_col (r r' : row) j :
  Forall2 (scaled k) r r' -> scaled k (at_col r j) (at_col r' j).
Proof.
  intros H. unfold at_col. destruct (r !! j) as [v|] eqn:Hv.
  - destruct (Forall2_lookup_l _ _ _ _ _ H Hv) as (v' & -> & Hs). exact Hs.
  - apply lookup_ge_None in Hv. rewrite (Forall2_length _ _ _ H) in Hv.
    apply lookup_ge_None in Hv. rewrite Hv. apply scaled_rzero.
Qed.

Lemma scaled_rscale z v v' : scaled k v v' -> scaled k (rscale z v) (rscale z v').
Proof.
  intros (q & H & H'). exists (inject_Z z * q)%Q. split; [now apply eps_free_rscale|].
  apply (eps_free_proper _ (inject_Z z * (k * q))%Q); [ring|].
  now apply eps_free_rscale.
Qed.

Lemma scaled_entry (r2 r1 r2' r1' : row) j :
  Forall2 (scaled k) r2 r2' -> Forall2 (scaled k) r1 r1' ->
  is_zero (at_col r1 0) = false ->
  scaled k (entry r2 r1 j) (entry r2' r1' j).
Proof.
  intros H2 H1 Hz.
  destruct (scaled_at_col r2 r2' 0 H2) as (qa & Ha & Ha').
  destruct (scaled_at_col r2 r2' (j + 1) H2) as (qb & Hb & Hb').
  destruct (scaled_at_col r1 r1' 0 H1) as (qc & Hc & Hc').
  destruct (scaled_at_col r1 r1' (j + 1) H1) as (qd & Hd & Hd').
  assert (Hz' : is_zero (at_col r1' 0) = false).
  { rewrite (scaled_is_zero (at_col r1 0)); [exact Hz|]. now exists qc. }
  destruct (eps_free_nonzero _ _ Hc Hz) as [Hqc _].
  exists ((qc * qb - qa * qd) / qc)%Q. split.
  - now apply eps_free_entry.
  - apply (eps_free_proper _ ((k * qc * (k * qb) - k * qa * (k * qd)) / (k * qc))%Q).
    + field. split; assumption.
    + now apply eps_free_entry.
Qed.

Lemma Forall2_fill (R : rfun -> rfun -> Prop) (f g : nat -> rfun) (js : list nat) :
  (forall j, R (f j) (g j)) ->
  forall ri ri' : row, Forall2 R ri ri' ->
  Forall2 R (foldl (fun r j => <[j := f j]> r) ri js)
            (foldl (fun r j => <[j := g j]> r) ri' js).
Proof.
  intros Hfg. induction js as [|j js IH]; intros ri ri' H; cbn [foldl]; [exact H|].
  apply IH. now apply Forall2_insert.
Qed.

Lemma Forall2_stride2 {X Y} (R : X -> Y -> Prop) (l : list X) (l' : list Y) :
  Forall2 R l l' -> Forall2 R (stride2 l) (stride2 l').
Proof.
  intros H. apply Forall2_same_length_lookup. split.
  - now rewrite !length_stride2, (Forall2_length _ _ _ H).
  - intros i x y. rewrite !lookup_stride2. now apply Forall2_lookup_lr.
Qed.

Lemma scaled_forallb (r r' : row) :
  Forall2 (scaled k) r r' -> forallb is_zero r' = forallb is_zero r.
Proof.
  induction 1 as [|v v' r r' Hv _ IH]; [reflexivity|].
  cbn [forallb]. now rewrite IH, (scaled_is_zero v v').
Qed.

Lemma scaled_next_row n cols i (r2 r1 r2' r1' : row) :
  Forall2 (scaled k) r2 r2' -> Forall2 (scaled k) r1 r1' ->
  is_zero (at_col r1 0) = false ->
  Forall2 (scaled k) (next_row n cols i r2 r1) (next_row n cols i r2' r1').
Proof.
  intros H2 H1 Hz. unfold next_row.
  assert (Hf : Forall2 (scaled k) (filled_row cols r2 r1 (zero_row cols))
                                  (filled_row cols r2' r1' (zero_row cols))).
  { apply Forall2_fill; [intros j; now apply scaled_entry|].
    apply Forall2_replicate, scaled_rzero. }
  rewrite (scaled_forallb _ _ Hf). destruct (forallb _ _); [|exact Hf].
  unfold aux_row. rewrite !length_imap, (Forall2_length _ _ _ H1).
  apply Forall2_app; [|apply Forall2_replicate, scaled_rzero].
  apply Forall2_same_length_lookup. split.
  - now rewrite !length_imap, (Forall2_length _ _ _ H1).
  - intros m x y. rewrite !list_lookup_imap.
    destruct (r1 !! m) as [u|] eqn:Hu; [|discriminate].
    destruct (Forall2_lookup_l _ _ _ _ _ H1 Hu) as (u' & -> & Hs).
    intros [= <-] [= <-]. now apply scaled_rscale.
Qed.

Lemma sign_changes_scale (s : Z) (l : list Z) :
  s <> 0%Z -> sign_changes (map (Z.mul s) l) = sign_changes l.
Proof.
  intros Hs. induction l as [|a [|b l] IH]; try reflexivity.
  change (sign_changes (map (Z.mul s) (a :: b :: l)))
    with ((if (s * a =? s * b)%Z then 0 else 1) + sign_changes (map (Z.mul s) (b :: l)))%Z.
  rewrite IH.
  change (sign_changes (a :: b :: l))
    with ((if (a =? b)%Z then 0 else 1) + sign_changes (b :: l))%Z.
  f_equal. destruct (Z.eqb_spec (s * a) (s * b)), (Z.eqb_spec a b); try reflexivity; nia.
Qed.

Lemma scaled_sign_at v v' : scaled k v v' -> sign_at v' = (Qsign k * sign_at v)%Z.
Proof.
  intros (q & H & H'). unfold sign_at.
  destruct (H eps_val) as [_ E]. destruct (H' eps_val) as [_ E'].
  now rewrite (Qsign_Qeq _ _ E), (Qsign_Qeq _ _ E'), Qsign_mult.
Qed.

Lemma scaled_signs_of (col col' : list rfun) :
  Forall2 (scaled k) col col' -> signs_of col' = map (Z.mul (Qsign k)) (signs_of col).
Proof.
  assert (Hk : Qsign k <> 0%Z) by (intros E; now apply Qsign_zero_iff in E).
  induction 1 as [|v v' col col' Hv _ IH]; [reflexivity|].
  rewrite !signs_of_cons, (scaled_sign_at v v' Hv), IH.
  destruct (decide (sign_at v = 0%Z)) as [E|E].
  - rewrite E, Z.mul_0_r. now destruct (decide (0%Z = 0%Z)).
  - destruct (decide ((Qsign k * sign_at v)%Z = 0%Z)) as [E'|E']; [nia | reflexivity].
Qed.

End Scaled.

(** In the regular case (no zero pivot) multiplying every coefficient by the
    same non-zero rational multiplies every entry of the array by it and
    leaves the count unchanged. *)
Theorem scaling_regular
    (coeffs : list Q) (k : Q) (A A' : matrix) (cnt cnt' : Z) :
  ~ (k == 0)%Q ->
  routh_hurwitz_symbolic coeffs = Ok (A, cnt) ->
  routh_hurwitz_symbolic (map (Qmult k) coeffs) = Ok (A', cnt') ->
  (forall m, 1 <= m -> m + 2 <= length coeffs -> is_zero (cell A m 0) = false) ->
  cnt' = cnt /\
  forall i j x, (reval (cell A' i j) x == k * reval (cell A i j) x)%Q.
Proof.
  intros Hk Hrun Hrun' Hpiv.
  destruct (run_inv coeffs A cnt Hrun) as (Hn & _ & Hb & Hcnt).
  destruct (run_inv _ A' cnt' Hrun') as (_ & _ & Hb' & Hcnt').
  rewrite length_map in Hb'. set (n := length coeffs) in *.
  assert (Hbase : Forall2 (scaled k) (map sympify coeffs)
                                     (map sympify (map (Qmult k) coeffs))).
  { rewrite <- list_fmap_compose. apply Forall2_fmap_2, Forall_Forall2_diag.
    apply Forall_forall. intros c _. apply scaled_sympify. }
  assert (Hlen : length (map sympify (map (Qmult k) coeffs)) = length (map sympify coeffs))
    by now rewrite !length_map.
  assert (Hrows : forall i r r', A !! i = Some r -> A' !! i = Some r' ->
                                 Forall2 (scaled k) r r').
  { intros i. induction i as [i IH] using lt_wf_ind. intros r r' Hr Hr'.
    pose proof (lookup_lt_Some _ _ _ Hr) as Hi.
    rewrite (built_length _ _ _ _ _ Hb) in Hi.
    destruct (decide (i = 0)) as [->|Hi0].
    { rewrite (built_first _ _ _ _ _ Hb) in Hr. injection Hr as <-.
      rewrite (built_first _ _ _ _ _ Hb') in Hr'. injection Hr' as <-.
      unfold first_row. rewrite Hlen, !length_stride2, Hlen.
      apply Forall2_app; [now apply Forall2_stride2|].
      apply Forall2_replicate, (scaled_rzero k). }
    destruct (decide (i = 1)) as [->|Hi1].
    { rewrite (built_second _ _ _ _ _ Hb) in Hr. injection Hr as <-.
      rewrite (built_second _ _ _ _ _ Hb') in Hr'. injection Hr' as <-.
      unfold second_row. rewrite Hlen, !length_stride2, !length_drop, Hlen.
      apply Forall2_app; [now apply Forall2_stride2, Forall2_drop|].
      apply Forall2_replicate, (scaled_rzero k). }
    destruct (built_row _ _ _ _ i Hb ltac:(lia)) as (r2 & r1 & H2 & H1 & Hrow & _ & _).
    destruct (built_row _ _ _ _ i Hb' ltac:(lia)) as (r2' & r1' & H2' & H1' & Hrow' & _ & _).
    rewrite Hrow in Hr. injection Hr as <-. rewrite Hrow' in Hr'. injection Hr' as <-.
    apply (scaled_next_row k Hk).
    - apply (IH (i - 2)); (lia || assumption).
    - apply (IH (i - 1)); (lia || assumption).
    - rewrite <- (cell_row A (i - 1) 0 r1 H1). apply Hpiv; lia. }
  split.
  - assert (Hcol : Forall2 (scaled k) (first_col A) (first_col A')).
    { unfold first_col. apply Forall2_fmap_2, Forall2_same_length_lookup. split.
      - now rewrite (built_length _ _ _ _ _ Hb), (built_length _ _ _ _ _ Hb').
      - intros i r r' Hr Hr'. apply scaled_at_col. now apply (Hrows i). }
    rewrite Hcnt', Hcnt, (scaled_signs_of k Hk _ _ Hcol).
    apply sign_changes_scale. intros E. now apply Qsign_zero_iff in E.
  - intros i j x. unfold cell.
    destruct (A !! i) as [r|] eqn:Hr.
    + destruct (lookup_lt_is_Some_2 A' i) as [r' Hr'].
      { rewrite (built_length _ _ _ _ _ Hb').
        rewrite <- (built_length _ _ _ _ _ Hb). now apply lookup_lt_Some in Hr. }
      rewrite Hr'. cbn [default].
      destruct (scaled_at_col k r r' j (Hrows i r r' Hr Hr')) as (q & H & H').
      destruct (H x) as [_ ->]. destruct (H' x) as [_ ->]. reflexivity.
    + apply lookup_ge_None in Hr. rewrite (built_length _ _ _ _ _ Hb) in Hr.
      rewrite (proj2 (lookup_ge_None A' i)) by now rewrite (built_length _ _ _ _ _ Hb').
      cbn [default]. unfold at_col. cbn [lookup list_lookup default].
      rewrite reval_rzero. ring.
Qed.

Lemma scaling_regular_witness :
  exists A A' cnt cnt',
    routh_hurwitz_symbolic [1; 2; 3; 4; 5]%Q = Ok (A, cnt) /\
    routh_hurwitz_symbolic (map (Qmult (-2)) [1; 2; 3; 4; 5]%Q) = Ok (A', cnt') /\
    cnt' = cnt /\
    forall i j x, (reval (cell A' i j) x == -2 * reval (cell A i j) x)%Q.
Proof.
  eexists _, _, _, _. split; [vm_compute; reflexivity|].
  split; [vm_compute; reflexivity|].
  apply (scaling_regular [1; 2; 3; 4; 5]%Q (-2)).
  - intros H; vm_compute in H; discriminate.
  - vm_compute; reflexivity.
  - vm_compute; reflexivity.
  - intros m H1 H2. cbn [length] in H2.
    destruct m as [|[|[|[|m]]]]; try lia; vm_compute; reflexivity.
Defined.

(** With a zero pivot the hypothesis is needed: [s³ − 3s + 2] and its
    negative have the same roots and different counts. *)
Example scaling_zero_pivot :
  (exists A, routh_hurwitz_symbolic [1; 0; -3; 2]%Q = Ok (A, 2%Z)) /\
  (exists A, routh_hurwitz_symbolic (map (Qmult (-1)) [1; 0; -3; 2]%Q) = Ok (A, 0%Z)).
Proof. split; eexists; vm_compute; reflexivity. Qed.

End Scaling.

(** ** The zero polynomial *)

Module Degenerate.
Import Poly Expr Py Routh RowForms PolyFacts ExprFacts LoopFacts Defined LimitFacts.
Import Claims Shape ValueFacts Regular Quadratic.
Local Open Scope nat_scope.

Lemma is_zero_at_col (r : row) j :
  Forall (fun v => is_zero v = true) r -> is_zero (at_col r j) = true.
Proof.
  intros H. unfold at_col. destruct (r !! j) as [v|] eqn:Hv; [|reflexivity].
  exact (proj1 (Forall_lookup _ _) H j v Hv).
Qed.

Lemma signs_of_all_zero (col : list rfun) :
  Forall (fun v => is_zero v = true) col -> signs_of col = [].
Proof.
  induction 1 as [|v col Hv _ IH]; [reflexivity|].
  rewrite signs_of_cons, (sign_at_zero v Hv), IH. now destruct (decide _).
Qed.

(** When every coefficient is zero (and there are at least two), nothing
    fails: each zero pivot is replaced by ε, every row comes out zero, the
    replacement rows are zero as well, and the count is 0. *)
Theorem zero_polynomial (coeffs : list Q) :
  2 <= length coeffs ->
  Forall (fun c => (c == 0)%Q) coeffs ->
  exists A,
    routh_hurwitz_symbolic coeffs = Ok (A, 0%Z) /\
    forall i j, is_zero (cell A i j) = true.
Proof.
  intros Hn Hz. destruct (run_ok coeffs Hn) as (A & Hrun & _ & Hb).
  set (n := length coeffs) in *.
  set (P := fun v : rfun => is_zero v = true).
  assert (Hsym : Forall P (map sympify coeffs)).
  { apply Forall_map. eapply Forall_impl; [exact Hz|]. intros c Hc. unfold P.
    rewrite is_zero_sympify. now apply Qeq_eq_bool. }
  assert (Hrows : forall i r, A !! i = Some r -> Forall P r).
  { intros i. induction i as [i IH] using lt_wf_ind. intros r Hr.
    pose proof (lookup_lt_Some _ _ _ Hr) as Hi.
    rewrite (built_length _ _ _ _ _ Hb) in Hi.
    destruct (decide (i = 0)) as [->|Hi0].
    { rewrite (built_first _ _ _ _ _ Hb) in Hr. injection Hr as <-.
      unfold first_row. apply Forall_app. split.
      - now apply Forall_stride2.
      - now apply Forall_replicate. }
    destruct (decide (i = 1)) as [->|Hi1].
    { rewrite (built_second _ _ _ _ _ Hb) in Hr. injection Hr as <-.
      unfold second_row. apply Forall_app. split.
      - now apply Forall_stride2, Forall_drop.
      - now apply Forall_replicate. }
    destruct (built_row _ _ _ _ i Hb ltac:(lia)) as (r2 & r1 & H2 & H1 & Hrow & _ & _).
    rewrite Hrow in Hr. injection Hr as <-.
    pose proof (IH (i - 2) ltac:(lia) r2 H2) as P2.
    pose proof (IH (i - 1) ltac:(lia) r1 H1) as P1.
    unfold next_row. destruct (forallb _ _).
    - unfold aux_row. apply Forall_app. split; [|now apply Forall_replicate].
      apply Forall_lookup. intros k x. rewrite list_lookup_imap.
      destruct (r1 !! k) as [y|] eqn:Hy; [|discriminate]. intros [= <-].
      unfold P. rewrite is_zero_rscale.
      rewrite (proj1 (Forall_lookup _ _) P1 k y Hy). apply orb_true_r.
    - apply Forall_fill; [|now apply Forall_replicate].
      intros j. apply is_zero_entry_tail; now apply is_zero_at_col. }
  assert (Hcells : forall i j, is_zero (cell A i j) = true).
  { intros i j. unfold cell. destruct (A !! i) as [r|] eqn:Hr; [|reflexivity].
    apply is_zero_at_col. exact (Hrows i r Hr). }
  exists A. split; [|exact Hcells].
  rewrite Hrun. do 2 f_equal.
  rewrite signs_of_all_zero; [reflexivity|].
  apply Forall_lookup. intros i v Hv.
  pose proof (lookup_lt_Some _ _ _ Hv) as Hi. unfold first_col in Hi.
  rewrite length_map in Hi. rewrite first_col_lookup in Hv by exact Hi.
  injection Hv as <-. apply Hcells.
Qed.

Lemma zero_polynomial_witness :
  exists A,
    routh_hurwitz_symbolic [0; 0; 0; 0]%Q = Ok (A, 0%Z) /\
    forall i j, is_zero (cell A i j) = true.
Proof.
  apply (zero_polynomial [0; 0; 0; 0]%Q).
  - simpl; lia.
  - repeat constructor.
Defined.

End Degenerate.
